(** * Connection: the WebSocket client of clibri.transport.ts.client.node

    A shallow embedding of [src/index.ts] (class [Connection]) and proofs
    about its connection life cycle.

    The class is stateful and event driven.  It is modelled by explicit
    state passing over a [World]: the fields of the [Connection] object, the
    [WebSocket] objects created so far with the listeners registered on
    them, the timeouts scheduled in the event loop, and the log of the calls
    made to the collaborators (sockets, promise callbacks, subjects,
    logger).  Methods are computations in a small state-and-exception
    monad, because [_open] can [throw].

    The collaborators are not part of the sources.  What is assumed of
    them:
    - [new WebSocket(address)] throws for the addresses the library
      refuses and returns for the others; which addresses are refused, and
      what is thrown for them, is a parameter of the world ([invalid]);
    - the methods of a socket return; a socket calls a handler only while
      that handler is registered on it for the kind of the notification;
      apart from that, notifications come in any order and any number;
    - a timeout runs its callback once, unless [clearTimeout] was called
      on it before;
    - [Logger.debug] and [Logger.err] return the message they log;
    - [Subject.emit] runs the subscribers before it returns, and a
      subscriber may call the public methods;
    - the reconnect delay is an integer.
    [Logger.setGlobalLevel], called when the module is loaded, is outside of
    the class and not modelled. *)

From stdpp Require Import base option list gmap strings pretty.
From Stdlib Require Import ZArith.
From Stdlib.Strings Require Import Byte.

Local Open Scope string_scope.
Local Open Scope list_scope.
Local Open Scope Z_scope.

(** ** Data *)

(** [ArrayBufferLike] / [Buffer]: a sequence of bytes. *)
Definition Buffer : Type := list byte.

(** [WebSocket.Data = string | Buffer | ArrayBuffer | Buffer[]]. *)
Inductive Data : Type :=
| DataString (s : string)
| DataBuffer (b : Buffer)
| DataArrayBuffer (b : Buffer)
| DataArray (chunks : list Buffer).

(** The four notification kinds a [WebSocket] has listeners for. *)
Inductive EventKind : Type := KOpen | KMessage | KClose | KError.

(** A [WebSocket] object of the heap: the address it was constructed from
    and, per notification kind, whether the connection's handler is
    registered on it. *)
Record WebSocket : Type := mkWebSocket {
  ws_url : string;
  ws_on_open : bool;
  ws_on_message : bool;
  ws_on_close : bool;
  ws_on_error : bool
}.

(** Whether the handler of kind [k] is registered on [ws]. *)
Definition listens (k : EventKind) (ws : WebSocket) : bool :=
  match k with
  | KOpen => ws_on_open ws
  | KMessage => ws_on_message ws
  | KClose => ws_on_close ws
  | KError => ws_on_error ws
  end.

(** Registers ([b] true) or removes the handler of kind [k]. *)
Definition set_listener (k : EventKind) (b : bool) (ws : WebSocket) : WebSocket :=
  match k with
  | KOpen => mkWebSocket (ws_url ws) b (ws_on_message ws) (ws_on_close ws) (ws_on_error ws)
  | KMessage => mkWebSocket (ws_url ws) (ws_on_open ws) b (ws_on_close ws) (ws_on_error ws)
  | KClose => mkWebSocket (ws_url ws) (ws_on_open ws) (ws_on_message ws) b (ws_on_error ws)
  | KError => mkWebSocket (ws_url ws) (ws_on_open ws) (ws_on_message ws) (ws_on_close ws) b
  end.

(** [ConnectionOptions] is declared in [./options], which is not part of the
    sources at hand; the class reads its fields [logger], [autoconnect] and
    [reconnect], and writes [reconnect].  The values are taken as a
    parameter of the constructor. *)
Record ConnectionOptions : Type := mkOptions {
  logger : string;
  autoconnect : bool;
  reconnect : Z
}.

(** The fields of [Connection].  [_socket] and [_pending] are
    [T | undefined]; a socket is named by its index in the heap of the
    world, a pending pair [{resolver, rejector}] by the promise it
    settles.  [_subjects] and [_events] are never reassigned and carry no
    state of their own here. *)
Record Connection : Type := mkConnection {
  _socket : option nat;
  _connected : bool;
  _pending : option nat;
  _timeout : Z;
  _logger : string;
  _address : string;
  _options : ConnectionOptions
}.

(** Calls made to the collaborators, in program order. *)
Inductive Effect : Type :=
| NewWebSocket (sid : nat) (url : string)
| AddEventListener (sid : nat) (k : EventKind)
| RemoveEventListener (sid : nat) (k : EventKind)
| SocketSend (sid : nat) (b : Buffer)
| SocketClose (sid : nat)
| PromiseResolve (pid : nat)
| PromiseReject (pid : nat) (err : string)
| EmitConnected
| EmitDisconnected
| EmitError (err : string)
| EmitData (b : Buffer)
| SubjectDestroy (topic : string)
| LoggerDebug (msg : string)
| LoggerErr (msg : string).

(** The connection and what surrounds it: the sockets created so far, the
    scheduled timeouts with their delays, the next timeout handle and the
    next promise, the calls made so far, and the [WebSocket] library:
    [invalid url] is what [new WebSocket(url)] throws, if it throws. *)
Record World : Type := mkWorld {
  conn : Connection;
  sockets : list WebSocket;
  timers : gmap Z Z;
  next_timer : Z;
  next_promise : nat;
  log : list Effect;
  invalid : string -> option string
}.

(** ** The monad of methods *)

(** A method returns a value or throws; either way it leaves a world. *)
Inductive Outcome (A : Type) : Type :=
| Done (a : A) (w : World)
| Thrown (e : string) (w : World).
Arguments Done {A} a w.
Arguments Thrown {A} e w.

Definition world_of {A} (o : Outcome A) : World :=
  match o with Done _ w => w | Thrown _ w => w end.

Definition M (A : Type) : Type := World -> Outcome A.

Definition ret {A} (a : A) : M A := fun w => Done a w.

Definition bind {A B} (c : M A) (k : A -> M B) : M B :=
  fun w => match c w with
           | Done a w' => k a w'
           | Thrown e w' => Thrown e w'
           end.

Definition throw {A} (e : string) : M A := fun w => Thrown e w.

(** [try { c } catch (e) { h e }]. *)
Definition try_catch {A} (c : M A) (h : string -> M A) : M A :=
  fun w => match c w with
           | Done a w' => Done a w'
           | Thrown e w' => h e w'
           end.

Notation "'let*' x ':=' c 'in' k" := (bind c (fun x => k))
  (at level 10, x name, c at level 100, k at level 200).
Notation "c ;; k" := (bind c (fun _ => k))
  (at level 100, k at level 200, right associativity).

(** Reading and writing the world. *)
Definition gets {A} (f : World -> A) : M A := fun w => Done (f w) w.
Definition modify (f : World -> World) : M unit := fun w => Done tt (f w).

(** ** Field updates *)

(** One component of the world, or one field of the connection, is
    replaced; [put_reconnect] writes [_options.reconnect]. *)
Definition with_conn (f : Connection -> Connection) (w : World) : World :=
  mkWorld (f (conn w)) (sockets w) (timers w) (next_timer w) (next_promise w) (log w) (invalid w).
Definition with_sockets (f : list WebSocket -> list WebSocket) (w : World) : World :=
  mkWorld (conn w) (f (sockets w)) (timers w) (next_timer w) (next_promise w) (log w) (invalid w).
Definition with_timers (f : gmap Z Z -> gmap Z Z) (w : World) : World :=
  mkWorld (conn w) (sockets w) (f (timers w)) (next_timer w) (next_promise w) (log w) (invalid w).
Definition append_log (es : list Effect) (w : World) : World :=
  mkWorld (conn w) (sockets w) (timers w) (next_timer w) (next_promise w) (log w ++ es)
    (invalid w).

Definition put_socket (v : option nat) (c : Connection) : Connection :=
  mkConnection v (_connected c) (_pending c) (_timeout c) (_logger c) (_address c) (_options c).
Definition put_connected (v : bool) (c : Connection) : Connection :=
  mkConnection (_socket c) v (_pending c) (_timeout c) (_logger c) (_address c) (_options c).
Definition put_pending (v : option nat) (c : Connection) : Connection :=
  mkConnection (_socket c) (_connected c) v (_timeout c) (_logger c) (_address c) (_options c).
Definition put_timeout (v : Z) (c : Connection) : Connection :=
  mkConnection (_socket c) (_connected c) (_pending c) v (_logger c) (_address c) (_options c).
Definition put_reconnect (v : Z) (c : Connection) : Connection :=
  mkConnection (_socket c) (_connected c) (_pending c) (_timeout c) (_logger c) (_address c)
    (mkOptions (logger (_options c)) (autoconnect (_options c)) v).

(** [this.f], [this.f = v], and a call to a collaborator. *)
Definition this {A} (f : Connection -> A) : M A := gets (fun w => f (conn w)).
Definition assign (f : Connection -> Connection) : M unit := modify (with_conn f).
Definition call (e : Effect) : M unit := modify (append_log [e]).

(** ** The environment: sockets, timers, promises, subjects *)

(** [new WebSocket(address)]: throws when the library refuses the address;
    otherwise a fresh object at the end of the heap, no listener on it
    yet. *)
Definition new_WebSocket (url : string) : M nat :=
  let* refusal := gets (fun w => invalid w url) in
  match refusal with
  | Some e => throw e
  | None =>
      let* sid := gets (fun w => length (sockets w)) in
      modify (with_sockets (fun l => l ++ [mkWebSocket url false false false false]));;
      call (NewWebSocket sid url);;
      ret sid
  end.

(** [socket.addEventListener(kind, this._events.kind)] and
    [socket.removeEventListener(kind, this._events.kind)]. *)
Definition addEventListener (sid : nat) (k : EventKind) : M unit :=
  modify (with_sockets (alter (set_listener k true) sid));;
  call (AddEventListener sid k).

Definition removeEventListener (sid : nat) (k : EventKind) : M unit :=
  modify (with_sockets (alter (set_listener k false) sid));;
  call (RemoveEventListener sid k).

(** [clearTimeout(h)]: the timeout is unscheduled; nothing happens for a
    handle that is not scheduled (such as the initial [-1], or a timeout
    that has fired). *)
Definition clearTimeout (h : Z) : M unit :=
  modify (with_timers (delete h)).

(** [setTimeout(callback, delay)], where the callback is always
    [() => this._open()]: returns a fresh handle. *)
Definition setTimeout (delay : Z) : M Z :=
  let* h := gets next_timer in
  modify (fun w => mkWorld (conn w) (sockets w) (<[h := delay]> (timers w))
                     (h + 1) (next_promise w) (log w) (invalid w));;
  ret h.

(** [new Promise(...)]: the promise the pair [resolve]/[reject] settles. *)
Definition new_Promise : M nat :=
  let* pid := gets next_promise in
  modify (fun w => mkWorld (conn w) (sockets w) (timers w) (next_timer w)
                     (S pid) (log w) (invalid w));;
  ret pid.

(** [this._logger.debug(msg)] and [this._logger.err(msg)]: the [Logger] of
    the clibri package logs the message and returns it. *)
Definition debug (msg : string) : M string :=
  call (LoggerDebug msg);;
  ret msg.

Definition err (msg : string) : M string :=
  call (LoggerErr msg);;
  ret msg.

(** ** The methods of [Connection] *)

(** What [connect()] returns: [Promise.reject(new Error(msg))], or the new
    promise whose callbacks are kept in [_pending]. *)
Inductive ConnectReturn : Type :=
| Rejected (msg : string)
| Promised (pid : nat).

Definition _open : M unit :=
  let* s := this _socket in
  match s with
  | Some _ =>
      let* m := err "Attempt to open socket while current isn't closed" in
      throw m
  | None =>
      let* a := this _address in
      let* sid := new_WebSocket a in
      assign (put_socket (Some sid));;
      addEventListener sid KOpen;;
      addEventListener sid KMessage;;
      addEventListener sid KClose;;
      addEventListener sid KError
  end.

Definition _reconnect : M unit :=
  let* o := this _options in
  if reconnect o <=? 0 then ret tt
  else
    let* t := this _timeout in
    clearTimeout t;;
    let* h := setTimeout (reconnect o) in
    assign (put_timeout h);;
    let* _ := debug ("Will reconnect in " +:+ pretty (reconnect o) +:+ " ms") in
    ret tt.

Definition _drop : M unit :=
  assign (put_reconnect (-1));;
  let* t := this _timeout in
  clearTimeout t.

Definition _close : M unit :=
  let* s := this _socket in
  match s with
  | Some sid =>
      removeEventListener sid KOpen;;
      removeEventListener sid KMessage;;
      removeEventListener sid KClose;;
      removeEventListener sid KError;;
      call (SocketClose sid);;
      assign (put_socket None)
  | None => ret tt
  end;;
  _reconnect.

Definition send (buffer : Buffer) : M (option string) :=
  let* c := this _connected in
  let* s := this _socket in
  if negb c || bool_decide (s = None) then
    let* m := debug "Client isn't connected" in
    ret (Some m)
  else
    match s with
    | Some sid => call (SocketSend sid buffer);; ret None
    | None => throw "TypeError: Cannot read properties of undefined"
    end.

(** The executor of [new Promise] runs at once; an exception it throws
    rejects the promise and is not propagated. *)
Definition connect : M ConnectReturn :=
  let* t := this _timeout in
  clearTimeout t;;
  let* p := this _pending in
  if bool_decide (p <> None) then
    let* m := debug "Connection is already requested" in
    ret (Rejected m)
  else
    let* c := this _connected in
    let* s := this _socket in
    if c || bool_decide (s <> None) then
      let* m := debug "Already connected" in
      ret (Rejected m)
    else
      let* pid := new_Promise in
      try_catch
        (assign (put_pending (Some pid));;
         _open)
        (fun e => call (PromiseReject pid e));;
      ret (Promised pid).

Definition disconnect : M unit :=
  _drop;;
  _close.

Definition destroy : M unit :=
  _drop;;
  _close;;
  assign (put_pending None);;
  call (SubjectDestroy "connected");;
  call (SubjectDestroy "disconnected");;
  call (SubjectDestroy "error");;
  call (SubjectDestroy "data").

(** [getEvents()] returns [_subjects]. *)
Definition getEvents : M unit := ret tt.

(** ** Callers and notifications *)

(** A call of a public method by the user of the class; what the method
    returns is dropped. *)
Inductive Op : Type :=
| OpConnect
| OpDisconnect
| OpDestroy
| OpSend (buffer : Buffer)
| OpGetEvents.

(** The method [op] names is called. *)
Definition invoke (op : Op) : M unit :=
  match op with
  | OpConnect => connect;; ret tt
  | OpDisconnect => disconnect
  | OpDestroy => destroy
  | OpSend b => send b;; ret tt
  | OpGetEvents => getEvents
  end.

(** The methods are called one after the other. *)
Fixpoint invoke_all (ops : list Op) : M unit :=
  match ops with
  | [] => ret tt
  | op :: ops' => invoke op;; invoke_all ops'
  end.

(** The handlers [_events.open], [_events.close], [_events.message] and
    [_events.error].

    [Subject.emit] runs the subscribers synchronously, and a subscriber may
    call back into the connection.  Where the emission is the last
    statement of the handler, such calls are calls made right after the
    notification.  The emission of [_events.error] is followed by
    [_close()], so that handler takes the calls [during] its emission. *)
Definition on_open : M unit :=
  assign (put_connected true);;
  let* p := this _pending in
  match p with
  | Some pid => call (PromiseResolve pid);; assign (put_pending None)
  | None => ret tt
  end;;
  call EmitConnected.

Definition on_close : M unit :=
  assign (put_connected false);;
  _close;;
  call EmitDisconnected.

Definition on_message (data : Data) : M unit :=
  match data with
  | DataString _ =>
      let* m := debug "Expecting only binary data" in
      call (EmitError m)
  | DataBuffer b => call (EmitData b)
  | DataArrayBuffer b => call (EmitData b)
  | DataArray chunks => call (EmitData (concat chunks))
  end.

Definition on_error (message : string) (during : list Op) : M unit :=
  assign (put_connected false);;
  let* p := this _pending in
  match p with
  | Some pid =>
      let* m := debug ("Fail to connect: " +:+ message) in
      call (PromiseReject pid m);;
      assign (put_pending None)
  | None => ret tt
  end;;
  let* m := debug ("Connection error: " +:+ message) in
  call (EmitError m);;
  invoke_all during;;
  _close.

(** What the event loop delivers to the connection. *)
Inductive Input : Type :=
| Call (op : Op)
| SocketOpen (sid : nat)
| SocketMessage (sid : nat) (data : Data)
| SocketCloseEvent (sid : nat)
| SocketError (sid : nat) (message : string) (during : list Op)
| TimerFire (h : Z).

(** A notification of socket [sid] runs the handler if and only if the
    handler is registered on that socket for that kind. *)
Definition dispatch (sid : nat) (k : EventKind) (handler : M unit) : M unit :=
  let* ws := gets (fun w => sockets w !! sid) in
  match ws with
  | Some ws => if listens k ws then handler else ret tt
  | None => ret tt
  end.

(** A timeout fires once, if it is still scheduled; its callback is
    [() => { this._open(); }]. *)
Definition fire (h : Z) : M unit :=
  let* d := gets (fun w => timers w !! h) in
  match d with
  | Some _ => modify (with_timers (delete h));; _open
  | None => ret tt
  end.

(** One turn of the event loop. *)
Definition step (i : Input) : M unit :=
  match i with
  | Call op => invoke op
  | SocketOpen sid => dispatch sid KOpen on_open
  | SocketMessage sid data => dispatch sid KMessage (on_message data)
  | SocketCloseEvent sid => dispatch sid KClose on_close
  | SocketError sid message during => dispatch sid KError (on_error message during)
  | TimerFire h => fire h
  end.

(** Inputs are processed one after the other; an uncaught exception ends
    the run. *)
Fixpoint exec (ins : list Input) : M unit :=
  match ins with
  | [] => ret tt
  | i :: ins' => step i;; exec ins'
  end.

(** [new Connection(addr, options)], with the [WebSocket] library [lib].
    [fresh] is the world after the field initialisers and the assignments
    of the constructor, [constructor] is the rest of its body. *)
Definition fresh (lib : string -> option string) (addr : string)
    (options : ConnectionOptions) : World :=
  mkWorld
    (mkConnection None false None (-1) (logger options) addr options)
    [] ∅ 0 0%nat [] lib.

Definition constructor : M unit :=
  let* o := this _options in
  if autoconnect o then connect;; ret tt else ret tt.

(** The life of a connection: its construction and the inputs that follow. *)
Definition session (lib : string -> option string) (addr : string)
    (options : ConnectionOptions) (ins : list Input) : Outcome unit :=
  (constructor;; exec ins) (fresh lib addr options).

(** A world is reachable when some session ends in it. *)
Definition reachable (w : World) : Prop :=
  exists lib addr options ins, session lib addr options ins = Done tt w.

(** ** Summaries, invariants and observations

    The definitions the statements of the second part are written with. *)

(** *** Sample sessions *)

(** The options of most sessions below: no [autoconnect], a reconnect
    delay of 5000 ms. *)
Definition sample_options : ConnectionOptions := mkOptions "log" false 5000.

(** The library of the sessions below: it accepts the addresses of scheme
    [ws] and [wss], and no other. *)
Definition ws_only (url : string) : option string :=
  if String.prefix "ws://" url || String.prefix "wss://" url then None
  else Some ("Invalid URL: " +:+ url).

(** *** Summaries of the methods

    The world a method ends in, as a function of the world it starts in. *)

(** A socket after the four [removeEventListener] calls. *)
Definition silenced (ws : WebSocket) : WebSocket :=
  mkWebSocket (ws_url ws) false false false false.

(** [_open()] when no socket is held. *)
Definition opened (w : World) : World :=
  let sid := length (sockets w) in
  let url := _address (conn w) in
  mkWorld (put_socket (Some sid) (conn w))
    (sockets w ++ [mkWebSocket url true true true true])
    (timers w) (next_timer w) (next_promise w)
    (log w ++ [NewWebSocket sid url; AddEventListener sid KOpen;
               AddEventListener sid KMessage; AddEventListener sid KClose;
               AddEventListener sid KError])
    (invalid w).

(** [_close()] up to its call of [_reconnect()]. *)
Definition released (w : World) : World :=
  match _socket (conn w) with
  | Some sid =>
      mkWorld (put_socket None (conn w))
        (alter silenced sid (sockets w))
        (timers w) (next_timer w) (next_promise w)
        (log w ++ [RemoveEventListener sid KOpen; RemoveEventListener sid KMessage;
                   RemoveEventListener sid KClose; RemoveEventListener sid KError;
                   SocketClose sid])
        (invalid w)
  | None => w
  end.

(** [_reconnect()]. *)
Definition rearmed (w : World) : World :=
  let d := reconnect (_options (conn w)) in
  if d <=? 0 then w
  else mkWorld (put_timeout (next_timer w) (conn w)) (sockets w)
         (<[next_timer w := d]> (delete (_timeout (conn w)) (timers w)))
         (next_timer w + 1) (next_promise w)
         (log w ++ [LoggerDebug ("Will reconnect in " +:+ pretty d +:+ " ms")])
         (invalid w).

(** [_drop()]. *)
Definition dropped (w : World) : World :=
  mkWorld (put_reconnect (-1) (conn w)) (sockets w)
    (delete (_timeout (conn w)) (timers w))
    (next_timer w) (next_promise w) (log w) (invalid w).

(** [clearTimeout(this._timeout)]. *)
Definition untimed (w : World) : World :=
  with_timers (delete (_timeout (conn w))) w.

(** The promise of [connect()] is created and its callbacks are stored. *)
Definition requested (w : World) : World :=
  mkWorld (put_pending (Some (next_promise w)) (conn w)) (sockets w)
    (timers w) (next_timer w) (S (next_promise w)) (log w) (invalid w).

(** [connect()] when the library refuses the address and throws [e]: the
    promise is created, its callbacks are stored, and the exception of the
    executor rejects it. *)
Definition refused (e : string) (w : World) : World :=
  append_log [PromiseReject (next_promise w) e] (requested (untimed w)).

(** The library accepts the address of the connection. *)
Definition accepted (w : World) : Prop :=
  invalid w (_address (conn w)) = None.

(** The pending pair, if there is one, is called, which logs [es], and
    forgotten. *)
Definition settled (es : nat -> list Effect) (w : World) : World :=
  match _pending (conn w) with
  | Some pid => append_log (es pid) (with_conn (put_pending None) w)
  | None => w
  end.

(** What [_events.open] and [_events.error] log when they settle. *)
Definition resolve (pid : nat) : list Effect := [PromiseResolve pid].

Definition reject (message : string) (pid : nat) : list Effect :=
  [LoggerDebug ("Fail to connect: " +:+ message);
   PromiseReject pid ("Fail to connect: " +:+ message)].

(** [destroy()] after [_drop()] and [_close()]. *)
Definition destroyed (w : World) : World :=
  append_log [SubjectDestroy "connected"; SubjectDestroy "disconnected";
              SubjectDestroy "error"; SubjectDestroy "data"]
    (with_conn (put_pending None) w).

(** *** The invariant of reachable worlds *)

Record Inv (w : World) : Prop := mkInv {
  (** at most one timeout is scheduled, the one [_timeout] names *)
  inv_timer_handle : forall h d, timers w !! h = Some d -> h = _timeout (conn w);
  (** a timeout is scheduled only while no socket is held *)
  inv_timer_idle : forall h d, timers w !! h = Some d ->
      _socket (conn w) = None /\ _connected (conn w) = false;
  (** the handlers are registered on no socket but the one held *)
  inv_listeners : forall sid ws k, sockets w !! sid = Some ws ->
      listens k ws = true -> _socket (conn w) = Some sid;
  (** the four handlers are registered on the socket held *)
  inv_socket : forall sid, _socket (conn w) = Some sid ->
      exists url, sockets w !! sid = Some (mkWebSocket url true true true true);
  (** no promise is pending while connected *)
  inv_connected : _connected (conn w) = true -> _pending (conn w) = None;
  (** a socket was constructed only if the library accepts the address *)
  inv_accepted : sockets w <> [] -> accepted w;
  (** a timeout is scheduled only after a socket was constructed *)
  inv_timer_accepted : forall h d, timers w !! h = Some d -> accepted w
}.

(** A method ends normally in a world that satisfies [Q]. *)
Definition ends {A} (c : M A) (w : World) (Q : World -> Prop) : Prop :=
  exists a w', c w = Done a w' /\ Q w'.

(** What the public methods keep: the invariant, the connected flag
    (only [_events.open] raises it), and whether the address is
    accepted. *)
Definition method_post (w : World) (w' : World) : Prop :=
  Inv w' /\ _connected (conn w') = _connected (conn w) /\
  (accepted w -> accepted w').

(** *** Frames

    A relation between the world before and the world after that every
    statement of a method respects is respected by the method, however it
    ends.  Two statements are set apart: the emission of [disconnected],
    which only [_events.close] makes, and the assignment to
    [_options.reconnect], which only [_drop] makes. *)

Definition respects (R : World -> World -> Prop) {A} (c : M A) : Prop :=
  forall w, R w (world_of (c w)).

(** [R] is a preorder and holds across every statement but the two set
    apart. *)
Record Frame (R : World -> World -> Prop) : Prop := mkFrame {
  frame_refl : forall w, R w w;
  frame_trans : forall w1 w2 w3, R w1 w2 -> R w2 w3 -> R w1 w3;
  frame_sockets : forall f w, R w (with_sockets f w);
  frame_timers : forall w g nt,
    R w (mkWorld (conn w) (sockets w) g nt (next_promise w) (log w) (invalid w));
  frame_promise : forall w np,
    R w (mkWorld (conn w) (sockets w) (timers w) (next_timer w) np (log w)
           (invalid w));
  frame_socket : forall v w, R w (with_conn (put_socket v) w);
  frame_connected : forall v w, R w (with_conn (put_connected v) w);
  frame_pending : forall v w, R w (with_conn (put_pending v) w);
  frame_timeout : forall v w, R w (with_conn (put_timeout v) w);
  frame_log : forall e w, e <> EmitDisconnected -> R w (append_log [e] w)
}.

(** [disconnect()] and [destroy()]. *)
Definition teardown (op : Op) : bool :=
  match op with
  | OpDisconnect | OpDestroy => true
  | _ => false
  end.

(** Whether a notification of kind [k] of the socket [sid] reaches its
    handler in [w]. *)
Definition hears (sid : nat) (k : EventKind) (w : World) : bool :=
  match sockets w !! sid with
  | Some ws => listens k ws
  | None => false
  end.

(** The input calls [disconnect()] or [destroy()] in [w]: the user calls
    it, or a subscriber of [error] does while [_events.error] emits. *)
Definition drops (i : Input) (w : World) : bool :=
  match i with
  | Call op => teardown op
  | SocketError sid _ during => hears sid KError w && existsb teardown during
  | _ => false
  end.

(** Whether one of the inputs calls [disconnect()] or [destroy()] when
    they are run from [w]. *)
Fixpoint drops_during (ins : list Input) (w : World) : bool :=
  match ins with
  | [] => false
  | i :: ins' => drops i w || drops_during ins' (world_of (step i w))
  end.

(** The inputs that run [_drop], and the inputs that run
    [_events.close]. *)
Definition tears_down (i : Input) : bool :=
  match i with
  | Call op => teardown op
  | SocketError _ _ during => existsb teardown during
  | _ => false
  end.

Definition is_close (i : Input) : bool :=
  match i with
  | SocketCloseEvent _ => true
  | _ => false
  end.

(** *** Stable properties

    A property of worlds that every summary keeps, at the places where the
    methods use it, holds after every input.  The invariant [Inv] may be
    assumed of the world before. *)

(** The effects logged outside of the summaries. *)
Definition plain (e : Effect) : bool :=
  match e with
  | LoggerDebug _ | SocketSend _ _ | SubjectDestroy _
  | EmitConnected | EmitDisconnected | EmitError _ | EmitData _ => true
  | _ => false
  end.

Record Stable (P : World -> Prop) : Prop := mkStable {
  stable_plain : forall w es, Inv w -> P w ->
    Forall (fun e => plain e = true) es -> P (append_log es w);
  stable_untimed : forall w, Inv w -> P w -> P (untimed w);
  stable_dropped : forall w, Inv w -> P w -> P (dropped w);
  stable_released : forall w, Inv w -> P w -> P (released w);
  stable_rearmed : forall w, Inv w -> P w ->
    _socket (conn w) = None -> _connected (conn w) = false -> P (rearmed w);
  stable_started : forall w, Inv w -> P w ->
    _pending (conn w) = None -> _connected (conn w) = false ->
    _socket (conn w) = None -> accepted w ->
    P (opened (requested (untimed w)));
  stable_refused : forall w e, Inv w -> P w ->
    _pending (conn w) = None -> _connected (conn w) = false ->
    _socket (conn w) = None -> invalid w (_address (conn w)) = Some e ->
    P (refused e w);
  stable_fired : forall w d, Inv w -> P w ->
    timers w !! _timeout (conn w) = Some d -> P (opened (untimed w));
  stable_connected : forall w sid, Inv w -> P w ->
    _socket (conn w) = Some sid ->
    P (settled resolve (with_conn (put_connected true) w));
  stable_unconnected : forall w sid, Inv w -> P w ->
    _socket (conn w) = Some sid -> P (with_conn (put_connected false) w);
  stable_rejected : forall w sid message, Inv w -> P w ->
    _socket (conn w) = Some sid -> P (settled (reject message) w);
  stable_forgotten : forall w, Inv w -> P w ->
    P (with_conn (put_pending None) w)
}.

(** *** Observations on the log *)

(** The calls made between two worlds, the later one extending the log of
    the earlier one. *)
Definition since (w w' : World) : list Effect :=
  drop (length (log w)) (log w').

(** How many of the calls [es] satisfy [f]. *)
Definition count (f : Effect -> bool) (es : list Effect) : nat :=
  length (filter (fun e => f e = true) es).

Definition is_disconnected (e : Effect) : bool :=
  match e with EmitDisconnected => true | _ => false end.

Definition is_emission (e : Effect) : bool :=
  match e with
  | EmitConnected | EmitDisconnected | EmitError _ | EmitData _ => true
  | _ => false
  end.

(** Calls to a [WebSocket]: its construction, its listeners, [send] and
    [close]. *)
Definition is_transport (e : Effect) : bool :=
  match e with
  | NewWebSocket _ _ | AddEventListener _ _ | RemoveEventListener _ _
  | SocketSend _ _ | SocketClose _ => true
  | _ => false
  end.

(** Calls to the [resolver] or the [rejector] of promise [pid]. *)
Definition settles (pid : nat) (e : Effect) : bool :=
  match e with
  | PromiseResolve p | PromiseReject p _ => bool_decide (p = pid)
  | _ => false
  end.

(** The fatal branch of [_open] logs at level [err]; nothing else does. *)
Definition is_fault (e : Effect) : bool :=
  match e with LoggerErr _ => true | _ => false end.

Definition no_fault (w : World) : Prop :=
  Forall (fun e => is_fault e = false) (log w).

(** *** Properties of worlds, and sample worlds *)

(** Automatic reconnection is off: the delay is disabled and no timeout is
    scheduled. *)
Definition disabled (w : World) : Prop :=
  reconnect (_options (conn w)) <= 0 /\ timers w = ∅.



(** [_drop()] has run: the reconnect delay is -1. *)
Definition lowered (w : World) : Prop :=
  reconnect (_options (conn w)) = -1.

(** The world the constructor returns in. *)
Definition constructed (lib : string -> option string) (addr : string)
    (options : ConnectionOptions) : World :=
  world_of (constructor (fresh lib addr options)).

(** Inputs after a [disconnect()]: the timeout scheduled before it is
    fired, among others. *)
Definition c5_after : list Input :=
  [TimerFire 0; SocketOpen 0; SocketCloseEvent 0; TimerFire 0; TimerFire 1].

(** A socket whose [close()] was called is not held any more. *)
Definition closed_released (w : World) : Prop :=
  forall sid, SocketClose sid ∈ log w ->
    (sid < length (sockets w))%nat /\ _socket (conn w) <> Some sid.

(** The log only grows; [quiet] says that what was added emits no
    [disconnected]. *)
Definition extends (w w' : World) : Prop :=
  exists es, log w' = log w ++ es.

Definition quiet (w w' : World) : Prop :=
  exists es, log w' = log w ++ es /\ count is_disconnected es = 0%nat.

(** An open connection. *)
Definition c10_world : World :=
  world_of (session ws_only "ws://host" sample_options
              [Call OpConnect; SocketOpen 0]).

(** The emissions, and the calls to sockets, among the calls [es]. *)
Definition emissions (es : list Effect) : list Effect :=
  filter (fun e => is_emission e = true) es.

Definition transport_calls (es : list Effect) : list Effect :=
  filter (fun e => is_transport e = true) es.

(** A connection constructed with [autoconnect], open, and a message in
    three fragments. *)
Definition c6_world : World :=
  world_of (session ws_only "ws://host" (mkOptions "log" true 5000) [SocketOpen 0]).

Definition c6_chunks : list Buffer := [[x01; x02]; []; [x03]].

(** An open connection with a reconnect delay of 5000 ms. *)
Definition c4_world : World :=
  world_of (session ws_only "ws://host" (mkOptions "log" true 5000) [SocketOpen 0]).

(** An open connection, configured with a reconnect delay of 5000 ms, that
    was opened after a [disconnect()]. *)
Definition c4_dropped_world : World :=
  world_of (session ws_only "ws://host" sample_options
              [Call OpDisconnect; Call OpConnect; SocketOpen 0]).


(** What an input may do to the configuration: nothing, but for the
    reconnect delay when a teardown is [allowed], which can make it -1. *)
Definition configured (allowed : bool) (w w' : World) : Prop :=
  _address (conn w') = _address (conn w) /\
  _logger (conn w') = _logger (conn w) /\
  logger (_options (conn w')) = logger (_options (conn w)) /\
  autoconnect (_options (conn w')) = autoconnect (_options (conn w)) /\
  (reconnect (_options (conn w')) = reconnect (_options (conn w)) \/
   allowed = true /\ reconnect (_options (conn w')) = -1).

(** The promise [pid] was not settled, and if it is the pending one then
    no socket is held and nothing will open one. *)
Definition stuck (pid : nat) (w : World) : Prop :=
  (pid < next_promise w)%nat /\ count (settles pid) (log w) = 0%nat /\
  (_pending (conn w) = Some pid -> _socket (conn w) = None /\ disabled w).


(** The connected flag is up although no socket is held, and nothing will
    open one. *)
Definition dead (w : World) : Prop :=
  _connected (conn w) = true /\ _socket (conn w) = None /\
  _pending (conn w) = None /\ disabled w.

(** [connect()], then [disconnect()] before the socket has opened. *)
Definition c1_world : World :=
  world_of (session ws_only "ws://host" sample_options [Call OpConnect; Call OpDisconnect]).

(** [connect()], then a close notification before the socket has opened,
    with no reconnect delay configured. *)
Definition c1_closed_world : World :=
  world_of (session ws_only "ws://host" (mkOptions "log" false 0)
              [Call OpConnect; SocketCloseEvent 0]).

(** [connect()], then [disconnect()] before the socket has opened. *)
Definition c2_requested_world : World :=
  world_of (session ws_only "ws://host" sample_options
              [Call OpConnect; Call OpDisconnect]).

(** [connect()], the socket opens, then [disconnect()]. *)
Definition c2_world : World :=
  world_of (session ws_only "ws://host" sample_options
              [Call OpConnect; SocketOpen 0; Call OpDisconnect]).

(** How often the pending promise was settled: not yet, unless the
    library refuses the address; then the exception of the executor
    rejected it. *)
Definition pending_settled (w : World) : nat :=
  match invalid w (_address (conn w)) with
  | None => 0
  | Some _ => 1
  end.

(** No promise was settled twice, the pending one was settled as
    [pending_settled] says, and a promise not created yet was not
    settled. *)
Definition settled_once (w : World) : Prop :=
  forall pid,
    (count (settles pid) (log w) <= 1)%nat /\
    (_pending (conn w) = Some pid ->
       count (settles pid) (log w) = pending_settled w /\
       (pid < next_promise w)%nat) /\
    ((next_promise w <= pid)%nat -> count (settles pid) (log w) = 0%nat).

(** *** Further properties of worlds *)

(** Every scheduled timeout carries the reconnect delay, which is
    positive. *)
Definition timed (w : World) : Prop :=
  forall h d, timers w !! h = Some d ->
    d = reconnect (_options (conn w)) /\ 0 < d.

(** Every socket was constructed from the address of the connection. *)
Definition addressed (w : World) : Prop :=
  forall sid ws, sockets w !! sid = Some ws -> ws_url ws = _address (conn w).

(** An open connection was closed by the peer: a timeout is scheduled. *)
Definition waiting_world : World :=
  world_of (session ws_only "ws://host" sample_options
              [Call OpConnect; SocketOpen 0; SocketCloseEvent 0]).

(** The connection has reconnected: socket 0 was closed, socket 1 is
    held. *)
Definition reconnected_world : World :=
  world_of (session ws_only "ws://host" sample_options
              [Call OpConnect; SocketOpen 0; SocketCloseEvent 0; TimerFire 0]).

(** Calls to [close()] of socket [sid]. *)
Definition closes (sid : nat) (e : Effect) : bool :=
  match e with
  | SocketClose s => bool_decide (s = sid)
  | _ => false
  end.

(** [close()] was called once on every socket but the one held, and not on
    the one held. *)
Definition closed_once (w : World) : Prop :=
  forall sid,
    ((sid < length (sockets w))%nat -> _socket (conn w) <> Some sid ->
     count (closes sid) (log w) = 1%nat) /\
    ((length (sockets w) <= sid)%nat \/ _socket (conn w) = Some sid ->
     count (closes sid) (log w) = 0%nat).

(** The promise [pid] was created, was settled [n] times, and is not the
    pending one. *)
Definition abandoned (pid : nat) (n : nat) (w : World) : Prop :=
  (pid < next_promise w)%nat /\ count (settles pid) (log w) = n /\
  _pending (conn w) <> Some pid.

(** A connection that is being opened. *)
Definition pending_world : World :=
  world_of (session ws_only "ws://host" sample_options [Call OpConnect]).

(** A connection whose first attempt failed and that waits to
    reconnect. *)
Definition retrying_world : World :=
  world_of (session ws_only "ws://host" sample_options
              [Call OpConnect; SocketError 0 "refused" []]).

(** The inputs of a server that fails every attempt: an error
    notification, with [message], of the socket [cur], then the timeout
    [h]; the next attempt is on the socket [next]. *)
Fixpoint failures (messages : list string) (cur next : nat) (h : Z) : list Input :=
  match messages with
  | [] => []
  | message :: rest =>
      SocketError cur message [] :: TimerFire h ::
      failures rest next (S next) (h + 1)
  end.

(** What [_events.error] emits for the messages. *)
Definition error_emissions (messages : list string) : list Effect :=
  map (fun message => EmitError ("Connection error: " +:+ message)) messages.

(** A constructor of sockets was called. *)
Definition is_new (e : Effect) : bool :=
  match e with NewWebSocket _ _ => true | _ => false end.

(** ** Runs of the model *)

(** The connection opens, receives, sends, is closed by the peer, and
    reconnects when the timeout fires. *)
Example run_reconnect :
  log (world_of (session ws_only "ws://host" sample_options
         [Call OpConnect; SocketOpen 0; SocketMessage 0 (DataBuffer [x01]);
          Call (OpSend [x02]); SocketCloseEvent 0; TimerFire 0; SocketOpen 1]))
  = [NewWebSocket 0 "ws://host"; AddEventListener 0 KOpen;
     AddEventListener 0 KMessage; AddEventListener 0 KClose;
     AddEventListener 0 KError; PromiseResolve 0; EmitConnected;
     EmitData [x01]; SocketSend 0 [x02];
     RemoveEventListener 0 KOpen; RemoveEventListener 0 KMessage;
     RemoveEventListener 0 KClose; RemoveEventListener 0 KError;
     SocketClose 0; LoggerDebug "Will reconnect in 5000 ms";
     EmitDisconnected; NewWebSocket 1 "ws://host";
     AddEventListener 1 KOpen; AddEventListener 1 KMessage;
     AddEventListener 1 KClose; AddEventListener 1 KError; EmitConnected].
Proof. vm_compute. reflexivity. Qed.

(** The first attempt fails: the promise is rejected, and the connection
    reconnects all the same. *)
Example run_refused :
  log (world_of (session ws_only "ws://host" sample_options
         [Call OpConnect; SocketError 0 "refused" []; TimerFire 0]))
  = [NewWebSocket 0 "ws://host"; AddEventListener 0 KOpen;
     AddEventListener 0 KMessage; AddEventListener 0 KClose;
     AddEventListener 0 KError; LoggerDebug "Fail to connect: refused";
     PromiseReject 0 "Fail to connect: refused";
     LoggerDebug "Connection error: refused";
     EmitError "Connection error: refused"; RemoveEventListener 0 KOpen;
     RemoveEventListener 0 KMessage; RemoveEventListener 0 KClose;
     RemoveEventListener 0 KError; SocketClose 0;
     LoggerDebug "Will reconnect in 5000 ms"; NewWebSocket 1 "ws://host";
     AddEventListener 1 KOpen; AddEventListener 1 KMessage;
     AddEventListener 1 KClose; AddEventListener 1 KError].
Proof. vm_compute. reflexivity. Qed.

(** A subscriber of [error] calls [connect()] and [disconnect()] from
    within the emission: the first is rejected, the second closes the
    socket, and the [_close()] of the handler finds nothing to do. *)
Example run_reentrant :
  log (world_of (session ws_only "ws://host" sample_options
         [Call OpConnect; SocketOpen 0;
          SocketError 0 "reset" [OpConnect; OpDisconnect]]))
  = [NewWebSocket 0 "ws://host"; AddEventListener 0 KOpen;
     AddEventListener 0 KMessage; AddEventListener 0 KClose;
     AddEventListener 0 KError; PromiseResolve 0; EmitConnected;
     LoggerDebug "Connection error: reset";
     EmitError "Connection error: reset"; LoggerDebug "Already connected";
     RemoveEventListener 0 KOpen; RemoveEventListener 0 KMessage;
     RemoveEventListener 0 KClose; RemoveEventListener 0 KError;
     SocketClose 0].
Proof. vm_compute. reflexivity. Qed.

(** [_open] throws when a socket is held. *)
Example run_open_twice :
  exists w, (_open;; _open) (fresh ws_only "ws://host" sample_options)
            = Thrown "Attempt to open socket while current isn't closed" w.
Proof. eexists. vm_compute. reflexivity. Qed.

(** ** The private methods end in their summaries

    Each private method is a total function of the world, except [_open],
    which throws when a socket is held, and when the library refuses the
    address. *)

(** Names the fields of a world. *)
Ltac open_world w :=
  destruct w as [[?s ?c ?p ?t ?lg ?a [?ol ?oa ?r]] ?ss ?ts ?nt ?np ?l ?lib].

(** Runs the monadic plumbing and the field updates of a goal. *)
Ltac run :=
  cbv [bind ret throw try_catch gets modify this assign call
       with_conn with_sockets with_timers append_log
       put_socket put_connected put_pending put_timeout put_reconnect
       new_WebSocket addEventListener removeEventListener
       clearTimeout setTimeout new_Promise debug err
       conn sockets timers next_timer next_promise log invalid
       _socket _connected _pending _timeout _logger _address _options
       logger autoconnect reconnect world_of].

(** The four [removeEventListener] calls, and the four [addEventListener]
    calls on a new socket. *)

Lemma alter_silence sid (ss : list WebSocket) :
  alter (set_listener KError false) sid
    (alter (set_listener KClose false) sid
       (alter (set_listener KMessage false) sid
          (alter (set_listener KOpen false) sid ss)))
  = alter silenced sid ss.
Proof.
  rewrite !list_alter_alter_eq. apply list_alter_ext; [|done].
  by intros [].
Qed.

Lemma alter_subscribe (ss : list WebSocket) url :
  alter (set_listener KError true) (length ss)
    (alter (set_listener KClose true) (length ss)
       (alter (set_listener KMessage true) (length ss)
          (alter (set_listener KOpen true) (length ss)
             (ss ++ [mkWebSocket url false false false false]))))
  = ss ++ [mkWebSocket url true true true true].
Proof.
  rewrite !list_alter_alter_eq, alter_app_r_alt by done.
  by rewrite Nat.sub_diag.
Qed.

Lemma _open_idle w :
  _socket (conn w) = None -> accepted w -> _open w = Done tt (opened w).
Proof.
  unfold accepted. open_world w. cbn. intros -> E. unfold _open, opened.
  run. rewrite E. run.
  rewrite alter_subscribe. by rewrite <- !app_assoc.
Qed.

Lemma _open_refused w e :
  _socket (conn w) = None -> invalid w (_address (conn w)) = Some e ->
  _open w = Thrown e w.
Proof.
  open_world w. cbn. intros -> E. unfold _open. run. by rewrite E.
Qed.

Lemma _open_busy w sid :
  _socket (conn w) = Some sid ->
  _open w =
  Thrown "Attempt to open socket while current isn't closed"
    (append_log [LoggerErr "Attempt to open socket while current isn't closed"] w).
Proof. open_world w. cbn. intros ->. unfold _open. by run. Qed.

Lemma _reconnect_eq w : _reconnect w = Done tt (rearmed w).
Proof.
  open_world w. unfold _reconnect, rearmed. run. by destruct (r <=? 0).
Qed.

Lemma _drop_eq w : _drop w = Done tt (dropped w).
Proof. open_world w. unfold _drop, dropped. by run. Qed.

Lemma _close_eq w : _close w = Done tt (rearmed (released w)).
Proof.
  open_world w. unfold _close, released. run. destruct s as [sid|].
  - rewrite alter_silence, <- !app_assoc. apply _reconnect_eq.
  - apply _reconnect_eq.
Qed.

(** ** The public methods and the handlers end in their summaries *)

Lemma rearmed_off w :
  reconnect (_options (conn w)) <= 0 -> rearmed w = w.
Proof. intros H. unfold rearmed. by rewrite (proj2 (Z.leb_le _ _) H). Qed.

Lemma rearmed_released_dropped w :
  rearmed (released (dropped w)) = released (dropped w).
Proof.
  apply rearmed_off. open_world w. unfold released, dropped. run.
  destruct s; run; lia.
Qed.

Lemma connect_requested w pid :
  _pending (conn w) = Some pid ->
  connect w =
  Done (Rejected "Connection is already requested")
    (append_log [LoggerDebug "Connection is already requested"] (untimed w)).
Proof. open_world w. cbn. intros ->. unfold connect, untimed. by run. Qed.

Lemma connect_connected w :
  _pending (conn w) = None ->
  _connected (conn w) = true \/ _socket (conn w) <> None ->
  connect w =
  Done (Rejected "Already connected")
    (append_log [LoggerDebug "Already connected"] (untimed w)).
Proof.
  open_world w. cbn. intros -> H. unfold connect, untimed. run.
  rewrite bool_decide_eq_false_2 by naive_solver.
  destruct H as [->|H]; [done|].
  rewrite (bool_decide_eq_true_2 _ H). by rewrite orb_true_r.
Qed.

Lemma connect_idle w :
  _pending (conn w) = None -> _connected (conn w) = false ->
  _socket (conn w) = None -> accepted w ->
  connect w = Done (Promised (next_promise w)) (opened (requested (untimed w))).
Proof.
  unfold accepted. open_world w. cbn. intros -> -> -> E. unfold connect. run.
  rewrite !bool_decide_eq_false_2 by naive_solver. cbn [orb].
  match goal with |- context [_open ?x] => rewrite (_open_idle x) by done end.
  done.
Qed.

Lemma connect_refused w e :
  _pending (conn w) = None -> _connected (conn w) = false ->
  _socket (conn w) = None -> invalid w (_address (conn w)) = Some e ->
  connect w = Done (Promised (next_promise w)) (refused e w).
Proof.
  open_world w. cbn. intros -> -> -> E. unfold connect, refused. run.
  rewrite !bool_decide_eq_false_2 by naive_solver. cbn [orb].
  match goal with |- context [_open ?x] => rewrite (_open_refused x e) by done end.
  done.
Qed.

Lemma disconnect_eq w : disconnect w = Done tt (released (dropped w)).
Proof.
  unfold disconnect, bind. by rewrite _drop_eq, _close_eq, rearmed_released_dropped.
Qed.

Lemma destroy_eq w : destroy w = Done tt (destroyed (released (dropped w))).
Proof.
  unfold destroy, bind at 1 2.
  rewrite _drop_eq, _close_eq, rearmed_released_dropped.
  generalize (released (dropped w)). intros w'. unfold destroyed. run.
  by rewrite <- !app_assoc.
Qed.

Lemma send_open w sid buffer :
  _connected (conn w) = true -> _socket (conn w) = Some sid ->
  send buffer w = Done None (append_log [SocketSend sid buffer] w).
Proof. open_world w. cbn. intros -> ->. unfold send. by run. Qed.

Lemma send_closed w buffer :
  _connected (conn w) = false \/ _socket (conn w) = None ->
  send buffer w =
  Done (Some "Client isn't connected")
    (append_log [LoggerDebug "Client isn't connected"] w).
Proof.
  open_world w. cbn. unfold send. run. intros [->| ->]; [done|].
  by rewrite orb_true_r.
Qed.

Lemma on_open_eq w :
  on_open w =
  Done tt (append_log [EmitConnected]
             (settled resolve (with_conn (put_connected true) w))).
Proof. open_world w. unfold on_open, settled. run. by destruct p. Qed.

Lemma on_close_eq w :
  on_close w =
  Done tt (append_log [EmitDisconnected]
             (rearmed (released (with_conn (put_connected false) w)))).
Proof. open_world w. unfold on_close. run. by rewrite _close_eq. Qed.

Lemma on_error_eq message during w :
  on_error message during w =
  (invoke_all during;; _close)
    (append_log [LoggerDebug ("Connection error: " +:+ message);
                 EmitError ("Connection error: " +:+ message)]
       (settled (reject message) (with_conn (put_connected false) w))).
Proof.
  open_world w. unfold on_error, settled, reject. run.
  destruct p; by rewrite <- !app_assoc.
Qed.

(** ** The summaries keep the invariant *)

(** Takes the invariant [H] of [w] apart. *)
Ltac inv_intro H w :=
  destruct H as [T1 T2 L1 S1 C1 A1 A2]; unfold accepted in A1, A2;
  open_world w; cbn in T1, T2, L1, S1, C1, A1, A2.

Lemma Inv_fresh lib addr options : Inv (fresh lib addr options).
Proof. split; cbn; try done. Qed.

Lemma Inv_append_log es w : Inv w -> Inv (append_log es w).
Proof. intros H. inv_intro H w. by split. Qed.

Lemma Inv_untimed w : Inv w -> Inv (untimed w).
Proof.
  intros H. inv_intro H w. split; unfold accepted; cbn; try done;
    intros h d [_ ?]%lookup_delete_Some; eauto.
Qed.

Lemma timers_untimed w : Inv w -> timers (untimed w) = ∅.
Proof.
  intros H. inv_intro H w. cbn. apply map_empty. intros h.
  apply lookup_delete_None. destruct (ts !! h) as [d|] eqn:E; [|by right].
  left. symmetry. eauto.
Qed.

Lemma Inv_dropped w : Inv w -> Inv (dropped w).
Proof.
  intros H. inv_intro H w. split; unfold accepted; cbn; try done;
    intros h d [_ ?]%lookup_delete_Some; eauto.
Qed.

Lemma Inv_released w : Inv w -> Inv (released w).
Proof.
  intros H. pose proof H as H0. inv_intro H w. unfold released. cbn.
  destruct s as [sid|]; [|done]. split; unfold accepted; cbn; try done.
  - intros h d Hh. by destruct (T2 h d Hh).
  - intros sid' ws k Hl Hk. destruct (decide (sid = sid')) as [<-|Hne].
    + rewrite list_lookup_alter_eq in Hl.
      destruct (ss !! sid); simplify_eq/=. by destruct k.
    + rewrite list_lookup_alter_ne in Hl by done.
      specialize (L1 _ _ _ Hl Hk). congruence.
  - intros Hne. apply A1. intros ->. by destruct Hne.
Qed.

Lemma Inv_rearmed w :
  Inv w -> _socket (conn w) = None -> _connected (conn w) = false ->
  reconnect (_options (conn w)) <= 0 \/ accepted w ->
  Inv (rearmed w).
Proof.
  intros H. pose proof (timers_untimed _ H) as E. unfold accepted.
  inv_intro H w. cbn in E.
  cbn. intros -> -> Ha. unfold rearmed. cbn.
  destruct (r <=? 0) eqn:Er; [by split|].
  apply Z.leb_gt in Er. destruct Ha as [?|Ha]; [lia|].
  rewrite E. split; cbn; try done.
  intros h d [[? ?]|[_ ?]]%lookup_insert_Some; [done|]. by simplify_map_eq.
Qed.

Lemma Inv_opened w :
  Inv w -> _socket (conn w) = None -> timers w = ∅ -> accepted w ->
  Inv (opened w).
Proof.
  intros H. unfold accepted. inv_intro H w. cbn. intros -> -> Ha.
  split; cbn; try done.
  - intros sid ws k [[_ Hl]|[-> _]]%lookup_snoc_Some Hk; [|done].
    by specialize (L1 _ _ _ Hl Hk).
  - intros sid [= <-]. exists a. by apply list_lookup_middle.
Qed.

Lemma Inv_requested w :
  Inv w -> _connected (conn w) = false -> Inv (requested w).
Proof. intros H. inv_intro H w. cbn. intros ->. by split. Qed.

Lemma Inv_settled e w : Inv w -> Inv (settled e w).
Proof.
  intros H. inv_intro H w. unfold settled. cbn. destruct p; by split.
Qed.

Lemma Inv_forgotten w : Inv w -> Inv (with_conn (put_pending None) w).
Proof. intros H. inv_intro H w. by split. Qed.

Lemma Inv_destroyed w : Inv w -> Inv (destroyed w).
Proof. intros H. by apply Inv_append_log, Inv_forgotten. Qed.

Lemma Inv_disconnected w : Inv w -> Inv (with_conn (put_connected false) w).
Proof.
  intros H. inv_intro H w. split; cbn; try done.
  intros h d Hh. by destruct (T2 _ _ Hh).
Qed.

Lemma Inv_connected w sid :
  Inv w -> _socket (conn w) = Some sid ->
  Inv (settled resolve (with_conn (put_connected true) w)).
Proof.
  intros H. inv_intro H w. cbn. intros ->. unfold settled. cbn.
  destruct p; split; cbn; try done; intros h d Hh; destruct (T2 h d Hh); done.
Qed.

(** The library accepts the address of a connection that has a socket. *)
Lemma accepted_socket w sid ws :
  Inv w -> sockets w !! sid = Some ws -> accepted w.
Proof.
  intros H E. apply (inv_accepted _ H). intros En. by rewrite En in E.
Qed.

Lemma accepted_held w sid :
  Inv w -> _socket (conn w) = Some sid -> accepted w.
Proof.
  intros H Es. destruct (inv_socket _ H _ Es) as [url E].
  by eapply accepted_socket.
Qed.

Lemma Inv_refused e w :
  Inv w -> _connected (conn w) = false -> Inv (refused e w).
Proof.
  intros H Ec. apply Inv_append_log, Inv_requested; [by apply Inv_untimed|].
  by open_world w.
Qed.

(** ** No input throws, and every input keeps the invariant *)

Lemma ends_bind {A B} (c : M A) (k : A -> M B) w (Q R : World -> Prop) :
  ends c w Q -> (forall a w', Q w' -> ends (k a) w' R) -> ends (bind c k) w R.
Proof.
  intros (a & w' & E & HQ) Hk. unfold ends, bind. rewrite E. by apply Hk.
Qed.

Lemma ends_weaken {A} (c : M A) w (Q R : World -> Prop) :
  ends c w Q -> (forall w', Q w' -> R w') -> ends c w R.
Proof. intros (a & w' & E & HQ) HR. exists a, w'. eauto. Qed.

Lemma ends_ret {A} (a : A) w (Q : World -> Prop) : Q w -> ends (ret a) w Q.
Proof. intros HQ. by exists a, w. Qed.

Lemma ends_gets {A B} (f : World -> A) (k : A -> M B) w (Q : World -> Prop) :
  ends (k (f w)) w Q -> ends (bind (gets f) k) w Q.
Proof. done. Qed.

Lemma ends_eq {A} (c c' : M A) w w' (Q : World -> Prop) :
  c w = c' w' -> ends c' w' Q -> ends c w Q.
Proof. unfold ends. by intros ->. Qed.

Lemma connect_post w : Inv w -> ends connect w (method_post w).
Proof.
  intros H. destruct (_pending (conn w)) as [pid|] eqn:Ep.
  - eexists _, _. split; [by apply connect_requested with pid|].
    split; [by apply Inv_append_log, Inv_untimed|done].
  - destruct (_connected (conn w)) eqn:Ec.
    { eexists _, _. split; [apply connect_connected; eauto|].
      split; [by apply Inv_append_log, Inv_untimed|done]. }
    destruct (_socket (conn w)) as [sid|] eqn:Es.
    { eexists _, _. split; [apply connect_connected; [done|right; congruence]|].
      split; [by apply Inv_append_log, Inv_untimed|done]. }
    destruct (invalid w (_address (conn w))) as [e|] eqn:Ea.
    { eexists _, _. split; [by apply connect_refused|].
      split; [by apply Inv_refused|]. split; [done|].
      unfold accepted. congruence. }
    eexists _, _. split; [by apply connect_idle|]. split; [|done].
    apply Inv_opened; [|done|by apply timers_untimed|done].
    apply Inv_requested; [by apply Inv_untimed|done].
Qed.

Lemma disconnect_post w : Inv w -> ends disconnect w (method_post w).
Proof.
  intros H. eexists _, _. split; [apply disconnect_eq|]. split.
  - by apply Inv_released, Inv_dropped.
  - unfold accepted. open_world w. unfold released. cbn. by destruct s.
Qed.

Lemma destroy_post w : Inv w -> ends destroy w (method_post w).
Proof.
  intros H. eexists _, _. split; [apply destroy_eq|]. split.
  - by apply Inv_destroyed, Inv_released, Inv_dropped.
  - unfold accepted. open_world w. unfold released. cbn. by destruct s.
Qed.

Lemma send_post buffer w : Inv w -> ends (send buffer) w (method_post w).
Proof.
  intros H. destruct (_connected (conn w)) eqn:Ec.
  - destruct (_socket (conn w)) as [sid|] eqn:Es.
    + eexists _, _. split; [by apply send_open|].
      split; [by apply Inv_append_log|done].
    + eexists _, _. split; [apply send_closed; by right|].
      split; [by apply Inv_append_log|done].
  - eexists _, _. split; [apply send_closed; by left|].
    split; [by apply Inv_append_log|done].
Qed.

Lemma invoke_post op w : Inv w -> ends (invoke op) w (method_post w).
Proof.
  intros H. destruct op; cbn [invoke].
  - eapply ends_bind; [by apply connect_post|]. intros _ w' ?. by eexists _, _.
  - by apply disconnect_post.
  - by apply destroy_post.
  - eapply ends_bind; [by apply send_post|]. intros _ w' ?. by eexists _, _.
  - by eexists _, _.
Qed.

Lemma invoke_all_post ops w : Inv w -> ends (invoke_all ops) w (method_post w).
Proof.
  revert w. induction ops as [|op ops IH]; intros w H; cbn [invoke_all].
  - by eexists _, _.
  - eapply ends_bind; [by apply invoke_post|]. intros _ w1 (H1 & E1 & A1).
    eapply ends_weaken; [by apply IH|]. intros w2 (H2 & E2 & A2).
    split_and!; [done|congruence|auto].
Qed.

Lemma _close_Inv w :
  Inv w -> _connected (conn w) = false ->
  reconnect (_options (conn w)) <= 0 \/ accepted w -> ends _close w Inv.
Proof.
  intros H Ec Ha. eexists _, _. split; [apply _close_eq|].
  apply Inv_rearmed; [by apply Inv_released| | |].
  - open_world w. unfold released. cbn. by destruct s.
  - open_world w. unfold released. cbn in *. by destruct s.
  - revert Ha. unfold accepted. open_world w. unfold released. cbn.
    by destruct s.
Qed.

Lemma on_open_Inv w sid :
  Inv w -> _socket (conn w) = Some sid -> ends on_open w Inv.
Proof.
  intros H Es. eexists _, _. split; [apply on_open_eq|].
  by eapply Inv_append_log, Inv_connected.
Qed.

Lemma on_close_Inv w : Inv w -> accepted w -> ends on_close w Inv.
Proof.
  intros H Ha. eexists _, _. split; [apply on_close_eq|].
  apply Inv_append_log.
  destruct (_close_Inv (with_conn (put_connected false) w))
    as ([] & w' & E & H'); [by apply Inv_disconnected|done|by right|].
  rewrite _close_eq in E. by simplify_eq.
Qed.

Lemma on_message_Inv data w : Inv w -> ends (on_message data) w Inv.
Proof.
  intros H. destruct data; eexists _, _; (split; [done|]);
    by repeat apply Inv_append_log.
Qed.

Lemma on_error_Inv message during w :
  Inv w -> accepted w -> ends (on_error message during) w Inv.
Proof.
  intros H Ha. eapply ends_eq; [apply on_error_eq|].
  eapply ends_bind.
  - apply invoke_all_post, Inv_append_log, Inv_settled, Inv_disconnected, H.
  - intros _ w' (H' & E' & A'). apply _close_Inv; [done| |].
    + rewrite E'. open_world w. unfold settled. cbn. by destruct p.
    + right. apply A'. revert Ha. unfold accepted, settled.
      open_world w. cbn. by destruct p.
Qed.

Lemma dispatch_Inv sid k handler w :
  Inv w ->
  (forall ws, sockets w !! sid = Some ws -> listens k ws = true ->
     ends handler w Inv) ->
  ends (dispatch sid k handler) w Inv.
Proof.
  intros H Hh. apply ends_gets.
  destruct (sockets w !! sid) as [ws|] eqn:E; [|by apply ends_ret].
  destruct (listens k ws) eqn:Ek; [by eapply Hh|by apply ends_ret].
Qed.

Lemma fire_Inv h w : Inv w -> ends (fire h) w Inv.
Proof.
  intros H. apply ends_gets.
  destruct (timers w !! h) as [d|] eqn:E; [|by apply ends_ret].
  destruct (inv_timer_idle _ H _ _ E) as [Es Ec].
  rewrite (inv_timer_handle _ H _ _ E).
  pose proof (inv_timer_accepted _ H _ _ E) as Ha.
  eapply ends_eq with (c' := _open) (w' := untimed w); [done|].
  exists tt, (opened (untimed w)). split; [by apply _open_idle|].
  apply Inv_opened; [by apply Inv_untimed|done|by apply timers_untimed|done].
Qed.

Lemma step_Inv i w : Inv w -> ends (step i) w Inv.
Proof.
  intros H. destruct i; cbn [step].
  - eapply ends_weaken; [by apply invoke_post|]. by intros w' [? _].
  - apply dispatch_Inv; [done|]. intros ws Hs Hk.
    eapply on_open_Inv; [done|]. by eapply inv_listeners.
  - apply dispatch_Inv; [done|]. intros. by apply on_message_Inv.
  - apply dispatch_Inv; [done|]. intros ws Hs Hk.
    apply on_close_Inv; [done|]. by eapply accepted_socket.
  - apply dispatch_Inv; [done|]. intros ws Hs Hk.
    apply on_error_Inv; [done|]. by eapply accepted_socket.
  - by apply fire_Inv.
Qed.

Lemma exec_Inv ins w : Inv w -> ends (exec ins) w Inv.
Proof.
  revert w. induction ins as [|i ins IH]; intros w H; cbn [exec].
  - by apply ends_ret.
  - eapply ends_bind; [by apply step_Inv|]. intros _ w'. apply IH.
Qed.

Lemma constructor_Inv w : Inv w -> ends constructor w Inv.
Proof.
  intros H. apply ends_gets.
  destruct (autoconnect _); [|by apply ends_ret].
  eapply ends_bind; [by apply connect_post|]. intros _ w' [? _].
  by eexists _, _.
Qed.

Lemma session_Inv lib addr options ins :
  exists w, session lib addr options ins = Done tt w /\ Inv w.
Proof.
  destruct (ends_bind constructor (fun _ => exec ins) (fresh lib addr options) Inv Inv)
    as ([] & w & E & H).
  - apply constructor_Inv, Inv_fresh.
  - intros _ w'. apply exec_Inv.
  - by exists w.
Qed.

Lemma reachable_Inv w : reachable w -> Inv w.
Proof.
  intros (lib & addr & options & ins & E).
  destruct (session_Inv lib addr options ins) as (w' & E' & H). congruence.
Qed.

(** ** The methods respect what their statements respect *)

Section Respects.
Variable R : World -> World -> Prop.
Hypothesis HR : Frame R.

Lemma respects_ret {A} (a : A) : respects R (ret a).
Proof. intros w. apply HR. Qed.

Lemma respects_throw {A} e : respects R (@throw A e).
Proof. intros w. apply HR. Qed.

Lemma respects_gets {A} (f : World -> A) : respects R (gets f).
Proof. intros w. apply HR. Qed.

Lemma respects_this {A} (f : Connection -> A) : respects R (this f).
Proof. intros w. apply HR. Qed.

Lemma respects_bind {A B} (c : M A) (k : A -> M B) :
  respects R c -> (forall a, respects R (k a)) -> respects R (bind c k).
Proof.
  intros Hc Hk w. unfold bind. specialize (Hc w).
  destruct (c w) as [a w'|e w']; [|done].
  eapply frame_trans; [exact HR|exact Hc|apply Hk].
Qed.

Lemma respects_try_catch {A} (c : M A) (h : string -> M A) :
  respects R c -> (forall e, respects R (h e)) -> respects R (try_catch c h).
Proof.
  intros Hc Hh w. unfold try_catch. specialize (Hc w).
  destruct (c w) as [a w'|e w']; [done|].
  eapply frame_trans; [exact HR|exact Hc|apply Hh].
Qed.

Lemma respects_call e : e <> EmitDisconnected -> respects R (call e).
Proof. intros He w. by apply HR. Qed.

Lemma respects_modify f : (forall w, R w (f w)) -> respects R (modify f).
Proof. intros Hf w. apply Hf. Qed.

Ltac frame :=
  repeat first
    [ apply respects_ret | apply respects_throw | apply respects_gets
    | apply respects_this | apply respects_call; discriminate
    | apply respects_bind; [|intros ?]
    | apply respects_try_catch; [|intros ?]
    | assumption
    | apply respects_modify; intros ?; apply HR
    | match goal with
      | |- respects _ (if ?b then _ else _) => destruct b
      | |- respects _ (match ?x with _ => _ end) => destruct x
      end ].

Lemma respects__open : respects R _open.
Proof. unfold _open, new_WebSocket, addEventListener, err, assign. frame. Qed.

Lemma respects__reconnect : respects R _reconnect.
Proof. unfold _reconnect, clearTimeout, setTimeout, debug, assign. frame. Qed.

Lemma respects__close : respects R _close.
Proof.
  pose proof respects__reconnect.
  unfold _close, removeEventListener, assign. frame.
Qed.

Lemma respects_send buffer : respects R (send buffer).
Proof. unfold send, debug. frame. Qed.

Lemma respects_connect : respects R connect.
Proof.
  pose proof respects__open.
  unfold connect, clearTimeout, new_Promise, debug, assign. frame.
Qed.

Lemma respects_on_open : respects R on_open.
Proof. unfold on_open, assign. frame. Qed.

Lemma respects_on_message data : respects R (on_message data).
Proof. unfold on_message, debug. frame. Qed.

Lemma respects_fire h : respects R (fire h).
Proof. pose proof respects__open. unfold fire. frame. Qed.

Lemma respects_dispatch sid k handler :
  respects R handler -> respects R (dispatch sid k handler).
Proof. intros H. unfold dispatch. frame. Qed.

Lemma respects_on_close :
  (forall w, R w (append_log [EmitDisconnected] w)) -> respects R on_close.
Proof.
  intros ?. pose proof respects__close. unfold on_close, assign, call. frame.
Qed.

Lemma respects_invoke op :
  (teardown op = true -> forall w, R w (with_conn (put_reconnect (-1)) w)) ->
  respects R (invoke op).
Proof.
  intros Hd. pose proof respects__close. pose proof respects_connect.
  destruct op as [| | |buffer|]; cbn [invoke];
    [|specialize (Hd eq_refl)..| |]; try pose proof (respects_send buffer);
    unfold disconnect, destroy, _drop, getEvents, clearTimeout, assign;
    frame; by apply respects_modify.
Qed.

Lemma respects_invoke_all ops :
  (existsb teardown ops = true ->
   forall w, R w (with_conn (put_reconnect (-1)) w)) ->
  respects R (invoke_all ops).
Proof.
  induction ops as [|op ops IH]; intros Hd; cbn [invoke_all].
  - apply respects_ret.
  - apply respects_bind; [|intros _].
    + apply respects_invoke. intros E. apply Hd. cbn. by rewrite E.
    + apply IH. intros E. apply Hd. cbn. by rewrite E, orb_true_r.
Qed.

Lemma respects_on_error message during :
  (existsb teardown during = true ->
   forall w, R w (with_conn (put_reconnect (-1)) w)) ->
  respects R (on_error message during).
Proof.
  intros Hd. pose proof respects__close.
  pose proof (respects_invoke_all during Hd).
  unfold on_error, debug, assign. frame.
Qed.

Lemma respects_step i :
  (is_close i = true -> forall w, R w (append_log [EmitDisconnected] w)) ->
  (tears_down i = true -> forall w, R w (with_conn (put_reconnect (-1)) w)) ->
  respects R (step i).
Proof.
  intros Hc Hd. destruct i; cbn [step].
  - by apply respects_invoke.
  - apply respects_dispatch, respects_on_open.
  - apply respects_dispatch, respects_on_message.
  - apply respects_dispatch, respects_on_close. by apply Hc.
  - by apply respects_dispatch, respects_on_error.
  - apply respects_fire.
Qed.
Lemma respects_exec ins :
  (existsb is_close ins = true ->
   forall w, R w (append_log [EmitDisconnected] w)) ->
  (existsb tears_down ins = true ->
   forall w, R w (with_conn (put_reconnect (-1)) w)) ->
  respects R (exec ins).
Proof.
  induction ins as [|i ins IH]; intros Hc Hd; cbn [exec].
  - apply respects_ret.
  - apply respects_bind; [|intros _].
    + apply respects_step; intros E; [apply Hc|apply Hd]; cbn; by rewrite E.
    + apply IH; intros E; [apply Hc|apply Hd]; cbn; by rewrite E, orb_true_r.
Qed.

Lemma respects_constructor : respects R constructor.
Proof. pose proof respects_connect. unfold constructor. frame. Qed.
End Respects.

(** ** Stable properties hold in every world of a session *)

Section Stable.
Variable P : World -> Prop.
Hypothesis HP : Stable P.

Lemma connect_keeps w : Inv w -> P w -> P (world_of (connect w)).
Proof.
  intros H HPw. destruct (_pending (conn w)) as [pid|] eqn:Ep.
  { rewrite (connect_requested _ pid) by done. cbn [world_of].
    apply HP; [by apply Inv_untimed|by apply HP|by repeat constructor]. }
  destruct (_connected (conn w)) eqn:Ec.
  { rewrite connect_connected by eauto. cbn [world_of].
    apply HP; [by apply Inv_untimed|by apply HP|by repeat constructor]. }
  destruct (_socket (conn w)) as [sid|] eqn:Es.
  { rewrite connect_connected by (try right; congruence). cbn [world_of].
    apply HP; [by apply Inv_untimed|by apply HP|by repeat constructor]. }
  destruct (invalid w (_address (conn w))) as [e|] eqn:Ea.
  { rewrite (connect_refused _ e) by done. cbn [world_of].
    by apply (stable_refused P HP). }
  rewrite connect_idle by done. cbn [world_of]. by apply HP.
Qed.

Lemma disconnect_keeps w : Inv w -> P w -> P (world_of (disconnect w)).
Proof.
  intros H HPw. rewrite disconnect_eq. cbn [world_of].
  apply HP; [by apply Inv_dropped|by apply HP].
Qed.

Lemma destroy_keeps w : Inv w -> P w -> P (world_of (destroy w)).
Proof.
  intros H HPw. rewrite destroy_eq. cbn [world_of]. unfold destroyed.
  assert (Inv (released (dropped w))) by by apply Inv_released, Inv_dropped.
  assert (P (released (dropped w))).
  { apply HP; [by apply Inv_dropped|by apply HP]. }
  apply HP; [| |by repeat constructor].
  - by apply Inv_forgotten.
  - by apply HP.
Qed.

Lemma send_keeps buffer w : Inv w -> P w -> P (world_of (send buffer w)).
Proof.
  intros H HPw. destruct (_connected (conn w)) eqn:Ec.
  - destruct (_socket (conn w)) as [sid|] eqn:Es.
    + rewrite (send_open _ sid) by done. cbn [world_of].
      apply HP; [done|done|by repeat constructor].
    + rewrite send_closed by eauto. cbn [world_of].
      apply HP; [done|done|by repeat constructor].
  - rewrite send_closed by eauto. cbn [world_of].
    apply HP; [done|done|by repeat constructor].
Qed.

Lemma world_of_then {A} (c : M A) (k : M unit) w :
  world_of ((c;; k) w) =
  match c w with Done _ w' => world_of (k w') | Thrown _ w' => w' end.
Proof. unfold bind. by destruct (c w). Qed.

Lemma invoke_keeps op w : Inv w -> P w -> P (world_of (invoke op w)).
Proof.
  intros H HPw. destruct op; cbn [invoke].
  - rewrite world_of_then. pose proof (connect_keeps w H HPw).
    by destruct (connect w).
  - by apply disconnect_keeps.
  - by apply destroy_keeps.
  - rewrite world_of_then. pose proof (send_keeps buffer w H HPw).
    by destruct (send buffer w).
  - done.
Qed.

Lemma invoke_all_keeps ops w :
  Inv w -> P w -> P (world_of (invoke_all ops w)).
Proof.
  revert w. induction ops as [|op ops IH]; intros w H HPw; cbn [invoke_all].
  - done.
  - rewrite world_of_then. pose proof (invoke_keeps op w H HPw) as HP1.
    destruct (invoke_post op w H) as ([] & w1 & E & H1 & _).
    rewrite E in *. by apply IH.
Qed.

Lemma _close_keeps w :
  Inv w -> P w -> _connected (conn w) = false -> P (world_of (_close w)).
Proof.
  intros H HPw Ec. rewrite _close_eq. cbn [world_of].
  apply HP; [by apply Inv_released|by apply HP| |].
  - open_world w. unfold released. cbn. by destruct s.
  - open_world w. unfold released. cbn in *. by destruct s.
Qed.

Lemma on_open_keeps w sid :
  Inv w -> P w -> _socket (conn w) = Some sid -> P (world_of (on_open w)).
Proof.
  intros H HPw Es. rewrite on_open_eq. cbn [world_of].
  apply HP; [by eapply Inv_connected|by eapply HP|by repeat constructor].
Qed.

Lemma on_close_keeps w sid :
  Inv w -> P w -> _socket (conn w) = Some sid -> P (world_of (on_close w)).
Proof.
  intros H HPw Es. rewrite on_close_eq. cbn [world_of].
  pose proof (Inv_disconnected w H) as H1.
  pose proof (_close_keeps _ H1 (stable_unconnected P HP w sid H HPw Es) eq_refl)
    as HP2.
  assert (accepted (with_conn (put_connected false) w)) as Ha.
  { by apply (accepted_held w sid). }
  destruct (_close_Inv _ H1 eq_refl (or_intror Ha)) as ([] & w2 & E & H2).
  rewrite _close_eq in E, HP2. injection E as <-.
  apply HP; [done|done|by repeat constructor].
Qed.

Lemma on_message_keeps data w :
  Inv w -> P w -> P (world_of (on_message data w)).
Proof.
  intros H HPw.
  destruct data; cbn; repeat (apply HP; [| |by repeat constructor]);
    try done; by apply Inv_append_log.
Qed.

Lemma on_error_keeps message during w sid :
  Inv w -> P w -> _socket (conn w) = Some sid ->
  P (world_of (on_error message during w)).
Proof.
  intros H HPw Es. rewrite on_error_eq.
  set (w1 := append_log _ _).
  assert (Inv w1) as H1.
  { by apply Inv_append_log, Inv_settled, Inv_disconnected. }
  assert (P w1) as HP1.
  { apply HP; [by apply Inv_settled, Inv_disconnected| |by repeat constructor].
    apply (stable_rejected P HP) with sid;
      [by apply Inv_disconnected|by eapply HP|done]. }
  assert (_connected (conn w1) = false) as Ec1.
  { subst w1. open_world w. unfold settled. cbn. by destruct p. }
  rewrite world_of_then.
  pose proof (invoke_all_keeps during w1 H1 HP1) as HP2.
  destruct (invoke_all_post during w1 H1) as ([] & w2 & E & H2 & Ec2 & _).
  rewrite E in *. apply _close_keeps; [done|done|congruence].
Qed.

Lemma fire_keeps h w : Inv w -> P w -> P (world_of (fire h w)).
Proof.
  intros H HPw. unfold fire, bind, gets.
  destruct (timers w !! h) as [d|] eqn:E; [|done].
  destruct (inv_timer_idle _ H _ _ E) as [Es Ec].
  pose proof (inv_timer_handle _ H _ _ E) as Eh. rewrite Eh in *.
  pose proof (inv_timer_accepted _ H _ _ E) as Ha.
  unfold modify. change (with_timers _ w) with (untimed w).
  rewrite _open_idle by done. by eapply HP.
Qed.

Lemma step_keeps i w : Inv w -> P w -> P (world_of (step i w)).
Proof.
  intros H HPw.
  destruct i as [op|sid|sid data|sid|sid message during|h]; cbn [step];
    try (unfold dispatch, bind, gets;
         destruct (sockets w !! sid) as [ws|] eqn:E; [|done];
         match goal with |- context [listens ?k ws] =>
           destruct (listens k ws) eqn:Ek; [|done];
           pose proof (inv_listeners _ H _ _ _ E Ek) as Es
         end).
  - by apply invoke_keeps.
  - by eapply on_open_keeps.
  - by apply on_message_keeps.
  - by eapply on_close_keeps.
  - by eapply on_error_keeps.
  - by apply fire_keeps.
Qed.

Lemma exec_keeps ins w : Inv w -> P w -> P (world_of (exec ins w)).
Proof.
  revert w. induction ins as [|i ins IH]; intros w H HPw; cbn [exec].
  - done.
  - rewrite world_of_then. pose proof (step_keeps i w H HPw) as HP1.
    destruct (step_Inv i w H) as ([] & w1 & E & H1).
    rewrite E in *. by apply IH.
Qed.

Lemma session_keeps lib addr options ins :
  P (fresh lib addr options) -> P (world_of (session lib addr options ins)).
Proof.
  intros HP0. unfold session. rewrite world_of_then.
  destruct (constructor_Inv _ (Inv_fresh lib addr options)) as ([] & w1 & E & H1).
  rewrite E. apply exec_keeps; [done|].
  revert E. unfold constructor, bind at 1, this, gets.
  destruct (autoconnect _).
  - intros E.
    pose proof (connect_keeps _ (Inv_fresh lib addr options) HP0) as HP1.
    unfold bind, ret in E. destruct (connect _); by simplify_eq.
  - by intros [= <-].
Qed.
End Stable.

(** ** Facts on logs *)

#[local] Arguments count : simpl never.
#[local] Arguments since : simpl never.
#[local] Arguments fire : simpl never.

Lemma since_app w w' es : log w' = log w ++ es -> since w w' = es.
Proof. intros E. unfold since. rewrite E. apply drop_app_length. Qed.

Lemma count_app f es1 es2 :
  count f (es1 ++ es2) = (count f es1 + count f es2)%nat.
Proof. unfold count. by rewrite filter_app, length_app. Qed.

Lemma count_cons f e es :
  count f (e :: es) = ((if f e then 1 else 0) + count f es)%nat.
Proof.
  unfold count. rewrite filter_cons.
  destruct (f e); [by rewrite decide_True|by rewrite decide_False].
Qed.

Lemma count_zero f es :
  Forall (fun e => f e = false) es -> count f es = 0%nat.
Proof.
  induction 1 as [|e es He _ IH]; [done|]. unfold count in *.
  rewrite filter_cons, decide_False; [done|congruence].
Qed.

Lemma count_plain pid es :
  Forall (fun e => plain e = true) es -> count (settles pid) es = 0%nat.
Proof.
  intros H. apply count_zero. eapply Forall_impl; [exact H|]. by intros [].
Qed.

(** The effects of a summary that settles nothing, or another promise. *)
Ltac settles_none :=
  apply count_zero; repeat constructor; cbn;
  try (apply bool_decide_eq_false_2; intros ->).

(** Refutes the membership [Hin] of an effect in a list it is not in. *)
Ltac no_member Hin :=
  repeat (apply elem_of_cons in Hin as [Hin|Hin]; [congruence|]);
  apply elem_of_nil in Hin.

(** ** [_open] never throws *)

Lemma plain_no_fault es :
  Forall (fun e => plain e = true) es -> Forall (fun e => is_fault e = false) es.
Proof. intros H. eapply Forall_impl; [exact H|]. by intros []. Qed.

(** Shows the log of [w] in [H] and in the goal. *)
Ltac log_intro H w :=
  unfold no_fault in *; open_world w; cbn in H |- *.

Lemma no_fault_stable : Stable no_fault.
Proof.
  split.
  - intros w es _ H Hes. log_intro H w. apply Forall_app. split; [done|].
    by apply plain_no_fault.
  - by intros w _ H.
  - by intros w _ H.
  - intros w _ H. log_intro H w. unfold released. cbn.
    destruct s; [|done]. cbn. apply Forall_app. split; [done|].
    by repeat constructor.
  - intros w _ H _ _. log_intro H w. unfold rearmed. cbn.
    destruct (r <=? 0); [done|]. cbn. apply Forall_app. split; [done|].
    by repeat constructor.
  - intros w _ H _ _ _ _. log_intro H w. apply Forall_app. split; [done|].
    by repeat constructor.
  - intros w e _ H _ _ _ _. log_intro H w. apply Forall_app. split; [done|].
    by repeat constructor.
  - intros w d _ H _. log_intro H w. apply Forall_app. split; [done|].
    by repeat constructor.
  - intros w sid _ H _. log_intro H w. unfold settled. cbn.
    destruct p; [|done]. cbn. apply Forall_app. split; [done|].
    by repeat constructor.
  - by intros w sid _ H _.
  - intros w sid message _ H _. log_intro H w. unfold settled. cbn.
    destruct p; [|done]. cbn. apply Forall_app. split; [done|].
    by repeat constructor.
  - by intros w _ H.
Qed.

(** C8: [_open] never takes its fatal branch.  No session ends in an
    exception; no session logs the error that branch logs, so the branch
    did not run inside the executor of [connect()] either, where the
    exception would be turned into a rejection; and whenever a timeout is
    scheduled, whose callback calls [_open], no socket is held. *)
Theorem C8_open_never_faults lib addr options ins :
  exists w, session lib addr options ins = Done tt w /\
    (forall m, LoggerErr m ∉ log w) /\
    (forall h d, timers w !! h = Some d -> _socket (conn w) = None).
Proof.
  destruct (session_Inv lib addr options ins) as (w & E & H). exists w.
  split; [done|]. split.
  - intros m Hm.
    pose proof (session_keeps _ no_fault_stable lib addr options ins) as Hf.
    rewrite E in Hf. cbn [world_of] in Hf.
    assert (no_fault (fresh lib addr options)) as H0 by constructor.
    specialize (Hf H0). unfold no_fault in Hf.
    rewrite Forall_forall in Hf. by specialize (Hf _ Hm).
  - intros h d Hh. by destruct (inv_timer_idle _ H _ _ Hh).
Qed.

(** ** After [disconnect()] no timer runs *)

Lemma exec_app before after w :
  exec (before ++ after) w = (exec before;; exec after) w.
Proof.
  revert w. induction before as [|i before IH]; intros w; [done|].
  cbn [exec app]. unfold bind. destruct (step i w) as [[] w'|]; [|done].
  rewrite IH. done.
Qed.

Lemma session_exec lib addr options ins :
  session lib addr options ins = exec ins (constructed lib addr options).
Proof.
  unfold session, constructed, bind.
  destruct (constructor_Inv _ (Inv_fresh lib addr options)) as ([] & w & -> & _).
  done.
Qed.

(** A session is cut at one of its inputs. *)
Lemma session_cut lib addr options before i after :
  exists w1 w2, session lib addr options before = Done tt w1 /\
    step i w1 = Done tt w2 /\ Inv w1 /\ Inv w2 /\
    session lib addr options (before ++ i :: after) = exec after w2.
Proof.
  destruct (session_Inv lib addr options before) as (w1 & E1 & H1).
  destruct (step_Inv i w1 H1) as ([] & w2 & E2 & H2).
  exists w1, w2. split_and!; try done.
  rewrite session_exec in E1. rewrite session_exec, exec_app. unfold bind. rewrite E1.
  cbn [exec]. unfold bind. by rewrite E2.
Qed.

Lemma disabled_stable : Stable disabled.
Proof.
  split.
  - by intros w es _ H _.
  - intros w _ [H1 H2]. split; [done|]. open_world w. cbn in *.
    subst. apply delete_empty.
  - intros w _ [H1 H2]. split; [done|]. open_world w. cbn in *.
    subst. apply delete_empty.
  - intros w _ H. open_world w. unfold released. cbn. by destruct s.
  - intros w _ [H1 H2] _ _. by rewrite rearmed_off.
  - intros w _ [H1 H2] _ _ _ _. split; [done|]. open_world w. cbn in *.
    subst. apply delete_empty.
  - intros w e _ [H1 H2] _ _ _ _. split; [done|]. open_world w. cbn in *.
    subst. apply delete_empty.
  - intros w d _ [H1 H2] Hd. rewrite H2 in Hd. by rewrite lookup_empty in Hd.
  - intros w sid _ H _. open_world w. unfold settled. cbn. by destruct p.
  - by intros w sid _ H _.
  - intros w sid message _ H _. open_world w. unfold settled. cbn.
    by destruct p.
  - by intros w _ H.
Qed.

Lemma fire_disabled h w : disabled w -> fire h w = Done tt w.
Proof.
  intros [_ E]. unfold fire, bind, gets. by rewrite E, lookup_empty.
Qed.

(** ** What [_drop()] establishes

    A stable property that [_drop()] establishes holds after every input
    that calls [disconnect()] or [destroy()], also when a subscriber of
    [error] makes the call and [_close()] follows it in the handler. *)

Section AfterDrop.
Variable P : World -> Prop.
Hypothesis HP : Stable P.
Hypothesis Hdrop : forall w, Inv w -> P (dropped w).

Lemma teardown_establishes op w :
  Inv w -> teardown op = true -> P (world_of (invoke op w)).
Proof.
  intros H Hop.
  assert (P (released (dropped w))) as Hr.
  { apply HP; [by apply Inv_dropped|by apply Hdrop]. }
  destruct op; try done; cbn [invoke].
  - by rewrite disconnect_eq.
  - rewrite destroy_eq. cbn [world_of]. unfold destroyed.
    apply HP; [| |by repeat constructor].
    + by apply Inv_forgotten, Inv_released, Inv_dropped.
    + apply HP; [by apply Inv_released, Inv_dropped|done].
Qed.

Lemma invoke_all_establishes ops : forall w,
  Inv w -> existsb teardown ops = true -> P (world_of (invoke_all ops w)).
Proof.
  induction ops as [|op ops IH]; intros w H Hops; [done|].
  cbn [invoke_all]. rewrite world_of_then.
  destruct (invoke_post op w H) as ([] & w1 & E & H1 & _).
  pose proof (teardown_establishes op w H) as Hd. rewrite E in *.
  cbn [world_of] in Hd. cbn [existsb] in Hops.
  destruct (teardown op); [|by apply IH].
  apply (invoke_all_keeps _ HP); [done|by apply Hd].
Qed.

Lemma drops_establishes i w :
  Inv w -> drops i w = true -> P (world_of (step i w)).
Proof.
  intros H Hi. destruct i as [op| | | |sid message during|]; try done.
  - by apply teardown_establishes.
  - apply andb_true_iff in Hi as [Hh Hd]. cbn [step].
    unfold hears in Hh. unfold dispatch, bind at 1, gets.
    destruct (sockets w !! sid) as [ws|]; [|done]. rewrite Hh.
    rewrite on_error_eq. set (w0 := append_log _ _).
    assert (Inv w0 /\ _connected (conn w0) = false) as [H0 Ec0].
    { split; [apply Inv_append_log, Inv_settled, Inv_disconnected, H|].
      unfold w0, settled. open_world w. cbn. by destruct p. }
    rewrite world_of_then.
    pose proof (invoke_all_establishes during w0 H0 Hd) as Hw.
    destruct (invoke_all_post during w0 H0) as ([] & w1 & E & H1 & Ec1 & _).
    rewrite E in *. cbn [world_of] in Hw.
    apply (_close_keeps _ HP); [done|done|congruence].
Qed.
End AfterDrop.

Lemma disabled_dropped w : Inv w -> disabled (dropped w).
Proof.
  intros H. pose proof (timers_untimed w H) as E.
  open_world w. unfold disabled. cbn in *. split; [lia|done].
Qed.

(** C5: after an input that calls [disconnect()] (or [destroy()]), be it a
    call by the user or a call by a subscriber of [error] from within the
    emission of [_events.error], whatever inputs follow, the reconnect
    delay is disabled and no timeout is scheduled; so no timer ever runs
    its callback, which is the only automatic call of [_open], and
    [_reconnect] schedules nothing. *)
Theorem C5_no_reconnect_after_disconnect lib addr options before i after w :
  drops i (world_of (session lib addr options before)) = true ->
  session lib addr options (before ++ i :: after) = Done tt w ->
  reconnect (_options (conn w)) <= 0 /\ timers w = ∅ /\
  (forall h, fire h w = Done tt w) /\ _reconnect w = Done tt w.
Proof.
  intros Hi E.
  destruct (session_cut lib addr options before i after)
    as (w1 & w2 & E1 & E2 & H1 & H2 & E').
  rewrite E' in E. rewrite E1 in Hi. cbn [world_of] in Hi.
  pose proof (drops_establishes _ disabled_stable disabled_dropped i w1 H1 Hi)
    as Hd.
  rewrite E2 in Hd.
  cbn [world_of] in Hd.
  pose proof (exec_keeps _ disabled_stable after _ H2 Hd) as Hw.
  rewrite E in Hw. cbn [world_of] in Hw. destruct Hw as [Hr Ht].
  split_and!; try done.
  - intros h. by apply fire_disabled.
  - by rewrite _reconnect_eq, rearmed_off.
Qed.

(** C5 at a session where a subscriber of [error] calls [disconnect()]
    on an open connection with a reconnect delay of 5000 ms; the timeouts
    fired afterwards find nothing scheduled. *)
Lemma C5_no_reconnect_after_disconnect_witness :
  drops (SocketError 0 "reset" [OpDisconnect])
    (world_of (session ws_only "ws://host" sample_options
                 [Call OpConnect; SocketOpen 0])) = true /\
  let w := world_of (session ws_only "ws://host" sample_options
                       ([Call OpConnect; SocketOpen 0]
                          ++ SocketError 0 "reset" [OpDisconnect] :: c5_after)) in
  session ws_only "ws://host" sample_options
    ([Call OpConnect; SocketOpen 0]
       ++ SocketError 0 "reset" [OpDisconnect] :: c5_after) = Done tt w /\
  (reconnect (_options (conn w)) <= 0 /\ timers w = ∅ /\
   (forall h, fire h w = Done tt w) /\ _reconnect w = Done tt w).
Proof.
  split; [vm_compute; reflexivity|]. split; [vm_compute; reflexivity|].
  apply (C5_no_reconnect_after_disconnect ws_only "ws://host" sample_options
           [Call OpConnect; SocketOpen 0%nat]
           (SocketError 0 "reset" [OpDisconnect]) c5_after).
  - vm_compute; reflexivity.
  - vm_compute; reflexivity.
Defined.

(** ** A close asked for by the caller is not observed *)

Lemma plain_not_close es sid :
  Forall (fun e => plain e = true) es -> SocketClose sid ∉ es.
Proof.
  intros H Hin. rewrite Forall_forall in H. by specialize (H _ Hin).
Qed.

Lemma closed_released_stable : Stable closed_released.
Proof.
  split.
  - intros w es _ H Hes sid [Hin|Hin]%elem_of_app; [by apply H|].
    by destruct (plain_not_close es sid).
  - by intros w _ H.
  - by intros w _ H.
  - intros w Hw H sid. pose proof (inv_socket _ Hw) as Hs. revert H Hs.
    unfold closed_released, released. open_world w. cbn.
    destruct s as [cur|]; cbn; [|by intros H _; apply H].
    intros H Hs. rewrite length_alter.
    intros [Hin|Hin]%elem_of_app; [split; [by apply H|done]|].
    split; [|done].
    assert (sid = cur) as ->.
    { repeat (apply elem_of_cons in Hin as [Hin|Hin]; [congruence|]).
      by apply elem_of_nil in Hin. }
    destruct (Hs cur eq_refl) as [url Hl]. by apply lookup_lt_Some in Hl.
  - intros w _ H Es _. unfold closed_released, rearmed. open_world w. cbn in *.
    destruct (r <=? 0); [done|]. cbn. intros sid [Hin|Hin]%elem_of_app.
    + split; [by apply H|by subst].
    + by no_member Hin.
  - intros w _ H _ _ _ _ sid. revert H. unfold closed_released.
    open_world w. cbn. intros H [Hin|Hin]%elem_of_app.
    + destruct (H _ Hin) as [Hl _]. rewrite length_app. cbn.
      split; [lia|]. intros [= ?]. lia.
    + by no_member Hin.
  - intros w e _ H _ _ Es _ sid. revert H Es. unfold closed_released.
    open_world w. cbn. intros H -> [Hin|Hin]%elem_of_app.
    + by destruct (H _ Hin) as [Hl _].
    + by no_member Hin.
  - intros w d _ H _ sid. revert H. unfold closed_released.
    open_world w. cbn. intros H [Hin|Hin]%elem_of_app.
    + destruct (H _ Hin) as [Hl _]. rewrite length_app. cbn.
      split; [lia|]. intros [= ?]. lia.
    + by no_member Hin.
  - intros w cur _ H _ sid. revert H. unfold closed_released, settled.
    open_world w. cbn. destruct p; cbn; [|by intros H; apply H].
    intros H [Hin|Hin]%elem_of_app; [by apply H|].
    by no_member Hin.
  - by intros w cur _ H _.
  - intros w cur message _ H _ sid. revert H. unfold closed_released, settled.
    open_world w. cbn. destruct p; cbn; [|by intros H; apply H].
    intros H [Hin|Hin]%elem_of_app; [by apply H|].
    by no_member Hin.
  - by intros w _ H.
Qed.

Lemma reachable_closed_released w : reachable w -> closed_released w.
Proof.
  intros (lib & addr & options & ins & E).
  pose proof (session_keeps _ closed_released_stable lib addr options ins) as H.
  rewrite E in H. apply H. intros sid Hin. by apply elem_of_nil in Hin.
Qed.

(** No handler is registered on a socket that was closed. *)
Lemma closed_silent w sid ws k :
  reachable w -> SocketClose sid ∈ log w -> sockets w !! sid = Some ws ->
  listens k ws = false.
Proof.
  intros Hw Hin Hl. destruct (listens k ws) eqn:Ek; [|done].
  pose proof (inv_listeners _ (reachable_Inv _ Hw) _ _ _ Hl Ek).
  by destruct (reachable_closed_released _ Hw _ Hin).
Qed.

Lemma extends_frame : Frame extends.
Proof.
  split; try (intros; exists []; cbn; by rewrite app_nil_r).
  - intros w1 w2 w3 [es1 E1] [es2 E2]. exists (es1 ++ es2).
    by rewrite E2, E1, app_assoc.
  - intros e w _. by exists [e].
Qed.

Lemma quiet_frame : Frame quiet.
Proof.
  split; try (intros; exists []; cbn; by rewrite app_nil_r).
  - intros w1 w2 w3 (es1 & E1 & C1) (es2 & E2 & C2). exists (es1 ++ es2).
    split; [by rewrite E2, E1, app_assoc|]. by rewrite count_app, C1, C2.
  - intros e w He. exists [e]. split; [done|]. by destruct e.
Qed.

Lemma quiet_drop w : quiet w (with_conn (put_reconnect (-1)) w).
Proof. exists []. cbn. by rewrite app_nil_r. Qed.

Lemma extends_drop w : extends w (with_conn (put_reconnect (-1)) w).
Proof. exists []. cbn. by rewrite app_nil_r. Qed.

Lemma exec_extends ins w : extends w (world_of (exec ins w)).
Proof.
  apply (respects_exec _ extends_frame); intros _; [|apply extends_drop].
  intros w0. by exists [EmitDisconnected].
Qed.

Lemma reachable_exec ins w w' :
  reachable w -> exec ins w = Done tt w' -> reachable w'.
Proof.
  intros (lib & addr & options & before & E) E'.
  exists lib, addr, options, (before ++ ins).
  rewrite session_exec in *. rewrite exec_app. unfold bind. by rewrite E.
Qed.

Lemma reachable_step i w w' :
  reachable w -> step i w = Done tt w' -> reachable w'.
Proof.
  intros Hw E. apply (reachable_exec [i] w); [done|].
  cbn [exec]. unfold bind. by rewrite E.
Qed.

(** A close notification of a socket that was closed reaches no handler. *)
Lemma closed_unobserved w sid :
  reachable w -> SocketClose sid ∈ log w ->
  step (SocketCloseEvent sid) w = Done tt w.
Proof.
  intros Hw Hin. cbn [step]. unfold dispatch, bind, gets.
  destruct (sockets w !! sid) as [ws|] eqn:E; [|done].
  by rewrite (closed_silent w sid ws KClose).
Qed.

Lemma teardown_log w op w' sid :
  teardown op = true -> invoke op w = Done tt w' ->
  _socket (conn w) = Some sid ->
  exists rest,
    log w' = log w ++
      [RemoveEventListener sid KOpen; RemoveEventListener sid KMessage;
       RemoveEventListener sid KClose; RemoveEventListener sid KError;
       SocketClose sid] ++ rest.
Proof.
  intros Hop E Es. destruct op; try done; cbn [invoke] in E.
  - rewrite disconnect_eq in E. injection E as <-. exists [].
    open_world w. cbn in Es. subst. done.
  - rewrite destroy_eq in E. injection E as <-.
    exists [SubjectDestroy "connected"; SubjectDestroy "disconnected";
            SubjectDestroy "error"; SubjectDestroy "data"].
    open_world w. cbn in Es. subst. unfold destroyed, released. cbn.
    by rewrite <- !app_assoc.
Qed.

(** C10: [disconnect()] and [destroy()] emit no [disconnected].  When a
    socket is held they remove the four listeners and then call its
    [close()]; whatever follows, a close notification of that socket
    reaches no handler.  Only a close notification makes the connection
    emit [disconnected]. *)
Theorem C10_requested_close_is_silent w op :
  reachable w -> teardown op = true ->
  exists w', invoke op w = Done tt w' /\
    count is_disconnected (since w w') = 0%nat /\
    (forall sid, _socket (conn w) = Some sid ->
       (exists rest, since w w' =
          [RemoveEventListener sid KOpen; RemoveEventListener sid KMessage;
           RemoveEventListener sid KClose; RemoveEventListener sid KError;
           SocketClose sid] ++ rest) /\
       forall ins w'', exec ins w' = Done tt w'' ->
         step (SocketCloseEvent sid) w'' = Done tt w'') /\
    (forall i, is_close i = false ->
       count is_disconnected (since w (world_of (step i w))) = 0%nat).
Proof.
  intros Hw Hop.
  destruct (invoke_post op w (reachable_Inv _ Hw)) as ([] & w' & E & _).
  exists w'. split_and!; [done| | |].
  - pose proof (respects_invoke _ quiet_frame op (fun _ => quiet_drop) w)
      as (es & Hes & Hc).
    rewrite E in Hes. cbn [world_of] in Hes. by rewrite (since_app _ _ es).
  - intros sid Es. destruct (teardown_log w op w' sid Hop E Es) as [rest Hl].
    split; [exists rest; by apply since_app|].
    intros ins w'' E''. apply closed_unobserved.
    + apply (reachable_exec ins w'); [|done]. by apply (reachable_step (Call op) w).
    + destruct (exec_extends ins w') as [es Hes]. rewrite E'' in Hes.
      cbn [world_of] in Hes. rewrite Hes, Hl.
      apply elem_of_app. left. apply elem_of_app. right. set_solver.
  - intros i Hi.
    assert (quiet w (world_of (step i w))) as (es & Hes & Hc).
    { apply (respects_step _ quiet_frame); [by rewrite Hi|].
      intros _. apply quiet_drop. }
    by rewrite (since_app _ _ es).
Qed.

(** C10 at [disconnect()] on an open connection. *)
Lemma C10_requested_close_is_silent_witness :
  reachable c10_world /\ teardown OpDisconnect = true /\
  _socket (conn c10_world) = Some 0%nat /\
  exists w', invoke OpDisconnect c10_world = Done tt w' /\
    count is_disconnected (since c10_world w') = 0%nat /\
    step (SocketCloseEvent 0) w' = Done tt w'.
Proof.
  assert (reachable c10_world) as Hw.
  { exists ws_only, "ws://host", sample_options,
      [Call OpConnect; SocketOpen 0%nat]. vm_compute. reflexivity. }
  split_and!; [done|done|done|].
  destruct (C10_requested_close_is_silent c10_world OpDisconnect Hw eq_refl)
    as (w' & E & Hc & Hs & _).
  exists w'. split_and!; [done|done|].
  destruct (Hs 0%nat eq_refl) as [_ Hn]. by apply (Hn []).
Defined.

(** ** Inbound messages *)

(** C6: a message notification that reaches [_events.message] only adds to
    the log: every field of the connection, the sockets and the timeouts
    are as before.  A string makes one emission, on [error]; a [Buffer] or
    an [ArrayBuffer] makes one emission, on [data], of those bytes; an array
    of buffers makes one emission, on [data], of their concatenation in
    order.  No call is made to the socket. *)
Theorem C6_message_emissions w sid ws data :
  sockets w !! sid = Some ws -> ws_on_message ws = true ->
  exists es, step (SocketMessage sid data) w = Done tt (append_log es w) /\
    emissions es =
      [match data with
       | DataString _ => EmitError "Expecting only binary data"
       | DataBuffer b | DataArrayBuffer b => EmitData b
       | DataArray chunks => EmitData (concat chunks)
       end] /\
    transport_calls es = [].
Proof.
  intros Hl Hm. cbn [step]. unfold dispatch, bind at 1, gets.
  rewrite Hl. cbn [listens]. rewrite Hm. open_world w.
  destruct data as [str|b|b|chunks]; unfold on_message; run.
  - exists [LoggerDebug "Expecting only binary data";
            EmitError "Expecting only binary data"].
    by rewrite <- app_assoc.
  - by exists [EmitData b].
  - by exists [EmitData b].
  - by exists [EmitData (concat chunks)].
Qed.

(** C6 at a message in three fragments. *)
Lemma C6_message_emissions_witness :
  sockets c6_world !! 0%nat = Some (mkWebSocket "ws://host" true true true true) /\
  exists es,
    step (SocketMessage 0 (DataArray c6_chunks)) c6_world
      = Done tt (append_log es c6_world) /\
    emissions es = [EmitData [x01; x02; x03]].
Proof.
  split; [reflexivity|].
  destruct (C6_message_emissions c6_world 0%nat
              (mkWebSocket "ws://host" true true true true)
              (DataArray c6_chunks) eq_refl eq_refl) as (es & E & He & _).
  by exists es.
Defined.

(** ** [send] *)

Lemma constructed_not_connected lib addr options :
  _connected (conn (constructed lib addr options)) = false.
Proof.
  unfold constructed. destruct (autoconnect options) eqn:Ea.
  - assert (constructor (fresh lib addr options)
            = (connect;; ret tt) (fresh lib addr options)) as ->.
    { unfold constructor, bind at 1, this, gets. cbn. by rewrite Ea. }
    rewrite world_of_then.
    destruct (connect_post _ (Inv_fresh lib addr options))
      as (r & w' & E & _ & Ec & _).
    by rewrite E.
  - assert (constructor (fresh lib addr options) = Done tt (fresh lib addr options))
      as ->; [|done].
    unfold constructor, bind at 1, this, gets. cbn. by rewrite Ea.
Qed.

(** C7: [send] never throws.  With the connected flag up and a socket held
    it calls [send] of that socket once, with the bytes, and returns
    [undefined]; otherwise it returns the error "Client isn't connected"
    and calls no socket.  In both cases nothing but the log changes, so no
    bytes are held back for later.  On a connection just constructed it returns
    the error. *)
Theorem C7_send w buffer :
  (exists r es, send buffer w = Done r (append_log es w) /\
     match _connected (conn w), _socket (conn w) with
     | true, Some sid => r = None /\ es = [SocketSend sid buffer]
     | _, _ => r = Some "Client isn't connected" /\ transport_calls es = []
     end) /\
  (forall lib addr options, exists es,
     send buffer (constructed lib addr options) =
       Done (Some "Client isn't connected")
         (append_log es (constructed lib addr options)) /\
     transport_calls es = []).
Proof.
  split.
  - destruct (_connected (conn w)) eqn:Ec.
    + destruct (_socket (conn w)) as [sid|] eqn:Es.
      * eexists _, _. split; [by apply send_open|done].
      * eexists _, _. split; [apply send_closed; by right|done].
    + eexists _, _. split; [apply send_closed; by left|done].
  - intros lib addr options. exists [LoggerDebug "Client isn't connected"].
    split; [|done]. apply send_closed. left. apply constructed_not_connected.
Qed.

(** ** Unsolicited close *)

Lemma fire_scheduled h d w :
  timers w !! h = Some d -> _socket (conn w) = None -> accepted w ->
  fire h w = Done tt (opened (with_timers (delete h) w)).
Proof.
  intros E Es Ea. unfold fire, bind, gets. rewrite E. unfold modify.
  by apply _open_idle.
Qed.

(** A close notification of the socket held, with the connected flag up,
    makes exactly one emission of [disconnected]; the listeners are removed
    from the socket, its [close()] is called and the socket is let go.  If
    [_options.reconnect] is greater than 0 at that time, exactly one
    timeout is scheduled, with that delay, and its firing opens a new
    socket to the address; otherwise no timeout is scheduled and the
    connection holds no socket and no pending promise. *)
Lemma close_of_open_connection w sid :
  reachable w -> _socket (conn w) = Some sid -> _connected (conn w) = true ->
  exists w', step (SocketCloseEvent sid) w = Done tt w' /\
    count is_disconnected (since w w') = 1%nat /\
    SocketClose sid ∈ since w w' /\
    (forall ws k, sockets w' !! sid = Some ws -> listens k ws = false) /\
    _socket (conn w') = None /\ _connected (conn w') = false /\
    _pending (conn w') = None /\
    if decide (0 < reconnect (_options (conn w))) then
      timers w' = {[ _timeout (conn w') := reconnect (_options (conn w)) ]} /\
      exists w'', step (TimerFire (_timeout (conn w'))) w' = Done tt w'' /\
        _socket (conn w'') = Some (length (sockets w')) /\
        NewWebSocket (length (sockets w')) (_address (conn w)) ∈ since w' w''
    else timers w' = ∅.
Proof.
  intros Hw Es Ec. pose proof (reachable_Inv _ Hw) as H.
  destruct (inv_socket _ H _ Es) as [url Hl].
  pose proof (inv_connected _ H Ec) as Ep.
  pose proof (accepted_held _ _ H Es) as Ea.
  assert (timers w = ∅) as Et.
  { apply map_empty. intros h. destruct (timers w !! h) as [d|] eqn:E; [|done].
    destruct (inv_timer_idle _ H _ _ E). congruence. }
  cbn [step]. unfold dispatch, bind at 1, gets. rewrite Hl. cbn [listens ws_on_close].
  rewrite on_close_eq. eexists. split; [done|].
  unfold accepted in Ea. open_world w. cbn in Es, Ec, Ep, Et, Hl, Ea. subst.
  unfold released, rearmed. cbn.
  rewrite delete_empty, insert_empty.
  destruct (decide (0 < r)) as [Hr|Hr].
  - rewrite (proj2 (Z.leb_gt _ _)) by done. run.
    rewrite <- !app_assoc. erewrite since_app by done. split_and!; try done.
    + set_solver.
    + intros ws k. rewrite list_lookup_alter_eq, Hl. intros [= <-]. by destruct k.
    + erewrite fire_scheduled; [|apply lookup_singleton_eq|done|done].
      eexists. split; [done|]. split; [done|].
      erewrite since_app by done. set_solver.
  - rewrite (proj2 (Z.leb_le _ _)) by lia. run.
    rewrite <- !app_assoc. erewrite since_app by done. split_and!; try done.
    + set_solver.
    + intros ws k. rewrite list_lookup_alter_eq, Hl. intros [= <-]. by destruct k.
Qed.

(** ** [connect()] while a connection is requested or established *)

(** [connect()] called while a promise is pending, or while the connected
    flag is up or a socket is held, returns a rejected promise.  It creates
    no socket and calls none, and keeps no new pair of callbacks; the
    fields of the connection, [_pending] among them, and the sockets are as
    before.  But [clearTimeout(this._timeout)] runs first: the timeout
    [_timeout] names is no longer scheduled.  While the connected flag is
    up or a socket is held none is scheduled, so nothing changes. *)
Lemma connect_rejected w :
  reachable w ->
  _pending (conn w) <> None \/ _connected (conn w) = true \/
    _socket (conn w) <> None ->
  exists msg w', connect w = Done (Rejected msg) w' /\
    since w w' = [LoggerDebug msg] /\
    conn w' = conn w /\ sockets w' = sockets w /\
    next_promise w' = next_promise w /\ next_timer w' = next_timer w /\
    timers w' = delete (_timeout (conn w)) (timers w) /\
    (_connected (conn w) = true \/ _socket (conn w) <> None ->
     timers w' = timers w).
Proof.
  intros Hw Hg. pose proof (reachable_Inv _ Hw) as H.
  assert (exists msg,
    connect w = Done (Rejected msg) (append_log [LoggerDebug msg] (untimed w)))
    as [msg E].
  { destruct (_pending (conn w)) as [pid|] eqn:Ep.
    - eexists. by apply connect_requested with pid.
    - eexists. apply connect_connected; [done|]. by destruct Hg as [?|[?|?]]; auto. }
  exists msg, (append_log [LoggerDebug msg] (untimed w)).
  split; [exact E|]. split_and!; try done.
  - by apply since_app.
  - intros Hc. cbn. apply delete_id.
    destruct (timers w !! _timeout (conn w)) as [d|] eqn:Ed; [|done].
    destruct (inv_timer_idle _ H _ _ Ed) as [Es Ec].
    destruct Hc; congruence.
Qed.

(** ** The configuration *)

Lemma configured_frame allowed : Frame (configured allowed).
Proof.
  split; try (intros; split_and!; try done; by left).
  intros w1 w2 w3 (A1 & B1 & C1 & D1 & E1) (A2 & B2 & C2 & D2 & E2).
  split_and!; try congruence.
  destruct E2 as [E2|E2]; [|by right]. destruct E1 as [E1|E1].
  - left. congruence.
  - right. split; [tauto|]. rewrite E2. tauto.
Qed.

Lemma configured_drop w : configured true w (with_conn (put_reconnect (-1)) w).
Proof. split_and!; try done. by right. Qed.

Lemma configured_emit allowed w :
  configured allowed w (append_log [EmitDisconnected] w).
Proof. split_and!; try done. by left. Qed.

(** C9, as stated, fails: [disconnect()] overwrites
    [_options.reconnect]. *)
Lemma C9_counterexample :
  reconnect (_options (conn (fresh ws_only "ws://host" sample_options)))
    = 5000 /\
  reconnect (_options (conn (world_of
    (disconnect (fresh ws_only "ws://host" sample_options))))) = -1.
Proof. split; reflexivity. Qed.

(** C9, amended: the address, the logger and [autoconnect] are those of
    the construction in every world of every session.  The reconnect
    delay is the configured one, or -1; it is the configured one as long
    as no input of the session ran [disconnect()] or [destroy()], the only
    methods that assign it. *)
Theorem C9_configuration lib addr options ins :
  let w := world_of (session lib addr options ins) in
  _address (conn w) = addr /\
  _logger (conn w) = logger options /\
  logger (_options (conn w)) = logger options /\
  autoconnect (_options (conn w)) = autoconnect options /\
  (reconnect (_options (conn w)) = reconnect options \/
   existsb tears_down ins = true /\ reconnect (_options (conn w)) = -1).
Proof.
  assert (respects (configured (existsb tears_down ins))
            (constructor;; exec ins)) as H.
  { apply respects_bind; [apply configured_frame| |intros _].
    - apply respects_constructor, configured_frame.
    - apply respects_exec; [apply configured_frame| |].
      + intros _ w. apply configured_emit.
      + intros -> w. apply configured_drop. }
  apply (H (fresh lib addr options)).
Qed.

(** ** The reconnect delay of a session, and the unsolicited close *)

Lemma lowered_stable : Stable lowered.
Proof.
  split; try (by intros; unfold lowered in *; open_world w).
  - intros w _ H. revert H. unfold lowered, released. open_world w. cbn.
    by destruct s.
  - intros w _ H _ _. revert H. unfold lowered, rearmed. open_world w. cbn.
    by destruct (r <=? 0).
  - intros w sid _ H _. revert H. unfold lowered, settled. open_world w. cbn.
    by destruct p.
  - intros w sid message _ H _. revert H. unfold lowered, settled.
    open_world w. cbn. by destruct p.
Qed.

Lemma lowered_dropped w : Inv w -> lowered (dropped w).
Proof. by intros _. Qed.

(** An input changes the reconnect delay only by calling [disconnect()] or
    [destroy()], which set it to -1. *)
Lemma step_delay i w :
  Inv w ->
  reconnect (_options (conn (world_of (step i w)))) =
  if drops i w then -1 else reconnect (_options (conn w)).
Proof.
  intros H. destruct (drops i w) eqn:Hi.
  { by apply (drops_establishes _ lowered_stable lowered_dropped). }
  assert (tears_down i = false \/ step i w = Done tt w) as [Ht|E].
  { destruct i as [op| | | |sid message during|]; try by left.
    cbn in Hi. apply andb_false_iff in Hi as [Hh|Hd]; [right|by left].
    cbn [step]. unfold dispatch, bind, gets. unfold hears in Hh.
    destruct (sockets w !! sid) as [ws|]; [|done]. by rewrite Hh. }
  - assert (configured false w (world_of (step i w))) as (_ & _ & _ & _ & Hr).
    { apply (respects_step _ (configured_frame false)).
      - intros _ w0. apply configured_emit.
      - by rewrite Ht. }
    by destruct Hr as [Hr|[? _]].
  - by rewrite E.
Qed.

Lemma exec_delay ins : forall w,
  Inv w ->
  reconnect (_options (conn (world_of (exec ins w)))) =
  if drops_during ins w then -1 else reconnect (_options (conn w)).
Proof.
  induction ins as [|i ins IH]; intros w H; [done|].
  cbn [exec drops_during]. rewrite world_of_then.
  pose proof (step_delay i w H) as Hi.
  destruct (step_Inv i w H) as ([] & w1 & E & H1). rewrite E in *.
  cbn [world_of] in Hi |- *. rewrite (IH w1 H1), Hi.
  by destruct (drops i w), (drops_during ins w1).
Qed.

(** The delay of a session is the configured one until an input calls
    [disconnect()] or [destroy()], and -1 from then on. *)
Lemma session_delay lib addr options ins :
  reconnect (_options (conn (world_of (session lib addr options ins)))) =
  if drops_during ins (constructed lib addr options) then -1
  else reconnect options.
Proof.
  rewrite session_exec. unfold constructed.
  destruct (constructor_Inv _ (Inv_fresh lib addr options)) as ([] & w & E & H).
  pose proof (respects_constructor _ (configured_frame false)
                (fresh lib addr options)) as (_ & _ & _ & _ & Hr).
  rewrite E in *. cbn [world_of] in Hr |- *. rewrite (exec_delay ins w H).
  by destruct Hr as [->|[? _]].
Qed.

Lemma session_address lib addr options ins :
  _address (conn (world_of (session lib addr options ins))) = addr.
Proof.
  assert (respects (configured true) (constructor;; exec ins)) as H.
  { apply respects_bind; [apply configured_frame| |intros _].
    - apply respects_constructor, configured_frame.
    - apply respects_exec; [apply configured_frame| |].
      + intros _ w. apply configured_emit.
      + intros _ w. apply configured_drop. }
  by destruct (H (fresh lib addr options)) as (Ha & _).
Qed.

(** C4, as stated, fails: the delay that [_reconnect] looks at is not the
    configured one once [disconnect()] was called.  With a delay of
    5000 ms configured, after [disconnect()], [connect()] and the open
    notification the connection is open; the close notification emits
    [disconnected] and schedules no timeout. *)
Lemma C4_counterexample :
  reconnect sample_options = 5000 /\
  _connected (conn c4_dropped_world) = true /\
  _socket (conn c4_dropped_world) = Some 0%nat /\
  exists w',
    step (SocketCloseEvent 0) c4_dropped_world = Done tt w' /\
    count is_disconnected (since c4_dropped_world w') = 1%nat /\
    timers w' = ∅.
Proof.
  split_and!; [done|done|done|].
  eexists. split; [vm_compute; reflexivity|]. split; [|done].
  vm_compute. reflexivity.
Qed.

(** C4, amended: a close notification of the socket held, with the
    connected flag up, makes exactly one emission of [disconnected]; the
    listeners are removed from the socket, its [close()] is called and the
    socket is let go.  If the configured reconnect delay is greater than 0
    and no input of the session has called [disconnect()] or [destroy()],
    exactly one timeout is scheduled, with the configured delay, and its
    firing opens a new socket to the address; otherwise (the configured
    delay is 0 or negative, or one of these methods was called, which sets
    the delay to -1) no timeout is scheduled and the connection holds no
    socket and no pending promise. *)
Theorem C4_unsolicited_close lib addr options ins w sid :
  session lib addr options ins = Done tt w ->
  _socket (conn w) = Some sid -> _connected (conn w) = true ->
  let delay :=
    if drops_during ins (constructed lib addr options) then -1
    else reconnect options in
  exists w', step (SocketCloseEvent sid) w = Done tt w' /\
    count is_disconnected (since w w') = 1%nat /\
    SocketClose sid ∈ since w w' /\
    (forall ws k, sockets w' !! sid = Some ws -> listens k ws = false) /\
    _socket (conn w') = None /\ _connected (conn w') = false /\
    _pending (conn w') = None /\
    if decide (0 < delay) then
      timers w' = {[ _timeout (conn w') := delay ]} /\
      exists w'', step (TimerFire (_timeout (conn w'))) w' = Done tt w'' /\
        _socket (conn w'') = Some (length (sockets w')) /\
        NewWebSocket (length (sockets w')) addr ∈ since w' w''
    else timers w' = ∅.
Proof.
  intros E Es Ec delay.
  assert (reachable w) as Hw by by exists lib, addr, options, ins.
  pose proof (session_delay lib addr options ins) as Hd.
  pose proof (session_address lib addr options ins) as Ha.
  rewrite E in Hd, Ha. cbn [world_of] in Hd, Ha. fold delay in Hd.
  destruct (close_of_open_connection w sid Hw Es Ec)
    as (w' & E' & H1 & H2 & H3 & H4 & H5 & H6 & H7).
  exists w'. rewrite Hd, Ha in H7. by split_and!.
Qed.

(** C4 at an open connection with a reconnect delay of 5000 ms that was
    never disconnected. *)
Lemma C4_unsolicited_close_witness :
  session ws_only "ws://host" (mkOptions "log" true 5000) [SocketOpen 0]
    = Done tt c4_world /\
  _socket (conn c4_world) = Some 0%nat /\
  _connected (conn c4_world) = true /\
  exists w', step (SocketCloseEvent 0) c4_world = Done tt w' /\
    count is_disconnected (since c4_world w') = 1%nat /\
    timers w' = {[ _timeout (conn w') := 5000 ]}.
Proof.
  assert (session ws_only "ws://host" (mkOptions "log" true 5000)
            [SocketOpen 0%nat] = Done tt c4_world) as E
    by (vm_compute; reflexivity).
  split_and!; [done|done|done|].
  destruct (C4_unsolicited_close ws_only "ws://host" (mkOptions "log" true 5000)
              [SocketOpen 0%nat] c4_world 0%nat E eq_refl eq_refl)
    as (w' & E' & Hc & _ & _ & _ & _ & _ & Ht).
  exists w'. split_and!; [done|done|]. by destruct Ht.
Defined.

(** ** What [disconnect()] leaves behind

    [disconnect()] lets the socket go and disables the reconnection, and
    touches neither [_pending] nor [_connected].  The two worlds below
    cannot be left. *)

Lemma stuck_stable pid : Stable (stuck pid).
Proof.
  split.
  - intros w es _ (Hn & Hc & Hp) Hes. split_and!; [done| |done].
    cbn. by rewrite count_app, Hc, count_plain.
  - intros w Hw (Hn & Hc & Hp). split_and!; [done|done|]. intros Ep.
    destruct (Hp Ep) as [Es Hd]. split; [done|].
    by apply (stable_untimed _ disabled_stable).
  - intros w Hw (Hn & Hc & Hp). split_and!; [done|done|]. intros Ep.
    destruct (Hp Ep) as [Es Hd]. split; [done|].
    by apply (stable_dropped _ disabled_stable).
  - intros w Hw (Hn & Hc & Hp). revert Hn Hc Hp. unfold stuck, released.
    open_world w. cbn. destruct s as [sid|]; [|done]. cbn.
    intros Hn Hc Hp. split_and!; [done| |].
    + rewrite count_app, Hc. by settles_none.
    + intros Ep. by destruct (Hp Ep).
  - intros w Hw (Hn & Hc & Hp) Es Ec. revert Hn Hc Hp. unfold stuck, rearmed.
    destruct (reconnect (_options (conn w)) <=? 0) eqn:Er; [done|].
    apply Z.leb_gt in Er. open_world w. cbn in *.
    intros Hn Hc Hp. split_and!; [done| |].
    + rewrite count_app, Hc. by settles_none.
    + intros Ep. destruct (Hp Ep) as [_ [Hr _]]. cbn in Hr. lia.
  - intros w Hw (Hn & Hc & Hp) Ep Ec Es _. revert Hn Hc. unfold stuck.
    open_world w. cbn. intros Hn Hc. split_and!; [lia| |].
    + rewrite count_app, Hc. by settles_none.
    + intros [= ->]. lia.
  - intros w e Hw (Hn & Hc & Hp) Ep Ec Es _. revert Hn Hc. unfold stuck.
    open_world w. cbn. intros Hn Hc. split_and!; [lia| |].
    + rewrite count_app, Hc. settles_none. lia.
    + intros [= ->]. lia.
  - intros w d Hw (Hn & Hc & Hp) Ed. revert Hn Hc Hp Ed. unfold stuck.
    open_world w. cbn. intros Hn Hc Hp Ed. split_and!; [done| |].
    + rewrite count_app, Hc. by settles_none.
    + intros Ep. destruct (Hp Ep) as [_ [_ Et]]. cbn in Et. subst.
      by rewrite lookup_empty in Ed.
  - intros w sid Hw (Hn & Hc & Hp) Es. revert Hn Hc Hp Es.
    unfold stuck, settled. open_world w. cbn.
    destruct p as [cur|]; cbn; [|done].
    intros Hn Hc Hp ->. split_and!; [done| |done].
    rewrite count_app, Hc. settles_none. by destruct (Hp eq_refl).
  - intros w sid Hw (Hn & Hc & Hp) Es. split_and!; [done|done|].
    intros Ep. destruct (Hp Ep). congruence.
  - intros w sid message Hw (Hn & Hc & Hp) Es. revert Hn Hc Hp Es.
    unfold stuck, settled. open_world w. cbn.
    destruct p as [cur|]; cbn; [|done].
    intros Hn Hc Hp ->. split_and!; [done| |done].
    rewrite count_app, Hc. settles_none. by destruct (Hp eq_refl).
  - intros w Hw (Hn & Hc & Hp). by split_and!.
Qed.

Lemma dead_stable : Stable dead.
Proof.
  split.
  - by intros w es _ H _.
  - intros w Hw (Hc & Hs & Hp & Hd). split_and!; try done.
    by apply (stable_untimed _ disabled_stable).
  - intros w Hw (Hc & Hs & Hp & Hd). split_and!; try done.
    by apply (stable_dropped _ disabled_stable).
  - intros w Hw (Hc & Hs & Hp & Hd). unfold released. by rewrite Hs.
  - intros w Hw (Hc & _) _ Ec. congruence.
  - intros w Hw (Hc & _) _ Ec. congruence.
  - intros w e Hw (Hc & _) _ Ec. congruence.
  - intros w d Hw (_ & _ & _ & _ & Et) Ed. rewrite Et in Ed.
    by rewrite lookup_empty in Ed.
  - intros w sid Hw (_ & Hs & _) Es. congruence.
  - intros w sid Hw (_ & Hs & _) Es. congruence.
  - intros w sid message Hw (_ & Hs & _) Es. congruence.
  - intros w Hw (Hc & Hs & Hp & Hd). by split_and!.
Qed.

(** Once stuck, a promise is never settled. *)
Lemma stuck_forever pid w ins :
  Inv w -> stuck pid w ->
  count (settles pid) (log (world_of (exec ins w))) = 0%nat.
Proof.
  intros Hw Hs.
  by destruct (exec_keeps _ (stuck_stable pid) ins w Hw Hs) as (_ & Hc & _).
Qed.

(** Once dead, a connection rejects every [connect()]. *)
Lemma dead_forever w ins :
  Inv w -> dead w ->
  exists w', connect (world_of (exec ins w)) =
    Done (Rejected "Already connected") w' /\
    sockets w' = sockets (world_of (exec ins w)) /\
    conn w' = conn (world_of (exec ins w)).
Proof.
  intros Hw Hd.
  destruct (exec_keeps _ dead_stable ins w Hw Hd) as (Hc & Hs & Hp & _).
  eexists. split; [apply connect_connected; auto|done].
Qed.

Lemma session_world_Inv lib addr options ins :
  Inv (world_of (session lib addr options ins)).
Proof. by destruct (session_Inv lib addr options ins) as (w & -> & H). Qed.

(** C1 fails on the code.  The promise that [connect()] created is still
    pending after [disconnect()], and also after a close notification when
    no reconnect delay is configured; from there on no input, and no
    sequence of inputs, calls its [resolver] or its [rejector]. *)
Theorem C1_pending_connect_abandoned :
  (_pending (conn c1_world) = Some 0%nat /\
   forall ins, count (settles 0) (log (world_of (exec ins c1_world))) = 0%nat) /\
  (_pending (conn c1_closed_world) = Some 0%nat /\
   forall ins,
     count (settles 0) (log (world_of (exec ins c1_closed_world))) = 0%nat).
Proof.
  split; (split; [reflexivity|]); intros ins;
    (apply stuck_forever; [apply session_world_Inv|]);
    (split_and!; [vm_compute; lia|reflexivity|]); intros _;
    (split; [reflexivity|]); (split; [vm_compute; discriminate|reflexivity]).
Qed.

(** C2 fails on the code.  After [disconnect()] on an open connection no
    socket is held, no promise is pending and no timeout is scheduled, but
    the connected flag is still up: [send] answers that the client is not
    connected, and [connect()], then and after any further inputs, is
    rejected with "Already connected" and creates no socket.  After
    [disconnect()] on a connection that was still being opened,
    [connect()] is rejected with "Connection is already requested". *)
Theorem C2_connect_after_disconnect_rejected :
  (_socket (conn c2_world) = None /\ _pending (conn c2_world) = None /\
   timers c2_world = ∅ /\ _connected (conn c2_world) = true) /\
  (exists w', send [] c2_world = Done (Some "Client isn't connected") w') /\
  (forall ins, exists w',
     connect (world_of (exec ins c2_world)) =
       Done (Rejected "Already connected") w' /\
     sockets w' = sockets (world_of (exec ins c2_world)) /\
     conn w' = conn (world_of (exec ins c2_world))) /\
  (exists w',
     connect c2_requested_world =
       Done (Rejected "Connection is already requested") w' /\
     sockets w' = sockets c2_requested_world /\
     conn w' = conn c2_requested_world).
Proof.
  split; [|split; [|split]].
  - repeat split; reflexivity.
  - eexists. vm_compute. reflexivity.
  - intros ins. apply dead_forever; [apply session_world_Inv|].
    repeat split; try reflexivity. vm_compute. discriminate.
  - eexists. split; [vm_compute; reflexivity|]. by split.
Qed.

(** ** Settlement happens at most once

    What does hold of the promises of [connect()]: the callbacks of a
    promise are called at most once, and not at all while it is pending. *)

Lemma settled_once_log w w' es :
  settled_once w -> log w' = log w ++ es ->
  _pending (conn w') = _pending (conn w) -> next_promise w' = next_promise w ->
  pending_settled w' = pending_settled w ->
  (forall pid, count (settles pid) es = 0%nat) ->
  settled_once w'.
Proof.
  intros H El Ep En Ea Hes pid. destruct (H pid) as (H1 & H2 & H3).
  rewrite El, Ep, En, Ea, count_app, Hes, Nat.add_0_r. done.
Qed.

Lemma settled_once_settle w es :
  settled_once w -> accepted w ->
  (forall cur pid, count (settles pid) (es cur) =
     if decide (pid = cur) then 1%nat else 0%nat) ->
  settled_once (settled es w).
Proof.
  intros H Ha Hes. unfold settled.
  destruct (_pending (conn w)) as [cur|] eqn:Ep; [|done].
  intros pid. destruct (H pid) as (H1 & H2 & H3).
  destruct (H cur) as (_ & Hc & _). destruct (Hc Ep) as [Hc0 Hcn].
  unfold pending_settled in Hc0. rewrite Ha in Hc0.
  cbn. rewrite count_app, Hes. destruct (decide (pid = cur)) as [->|Hne].
  - rewrite Hc0. cbn. split; [lia|]. split; [done|]. intros. lia.
  - rewrite Nat.add_0_r. cbn. split; [done|]. split; [done|]. exact H3.
Qed.

Lemma settled_once_stable : Stable settled_once.
Proof.
  split.
  - intros w es _ H Hes. apply (settled_once_log w _ es); try done.
    intros pid. by apply count_plain.
  - intros w _ H. apply (settled_once_log w _ []); try done.
    cbn. by rewrite app_nil_r.
  - intros w _ H. apply (settled_once_log w _ []); try done.
    cbn. by rewrite app_nil_r.
  - intros w _ H. unfold released. destruct (_socket (conn w)) eqn:Es; [|done].
    eapply (settled_once_log w); try done; intros pid; by settles_none.
  - intros w _ H _ _. unfold rearmed.
    destruct (reconnect (_options (conn w)) <=? 0); [done|].
    eapply (settled_once_log w); try done; intros pid; by settles_none.
  - intros w _ H Ep _ _ Ha pid. destruct (H pid) as (H1 & H2 & H3).
    unfold pending_settled. cbn. unfold accepted in Ha. rewrite Ha.
    rewrite count_app.
    assert (count (settles pid)
              [NewWebSocket (length (sockets w)) (_address (conn w));
               AddEventListener (length (sockets w)) KOpen;
               AddEventListener (length (sockets w)) KMessage;
               AddEventListener (length (sockets w)) KClose;
               AddEventListener (length (sockets w)) KError] = 0%nat) as ->
      by by settles_none.
    rewrite Nat.add_0_r. split_and!; [done| |intros ?; apply H3; lia].
    intros [= <-]. split; [by apply H3|lia].
  - intros w e _ H Ep _ _ Ea pid. destruct (H pid) as (H1 & H2 & H3).
    unfold pending_settled, refused. cbn. rewrite Ea, count_app, count_cons.
    cbn [settles]. change (count (settles pid) []) with 0%nat.
    destruct (decide (next_promise w = pid)) as [<-|Hne].
    + rewrite bool_decide_eq_true_2 by done. rewrite H3 by lia.
      split_and!; [lia|intros _; split; lia|intros ?; lia].
    + rewrite bool_decide_eq_false_2 by done. rewrite !Nat.add_0_r.
      split_and!; [done|intros [= ?]; lia|intros ?; apply H3; lia].
  - intros w d _ H _.
    eapply (settled_once_log w); try done; intros pid; by settles_none.
  - intros w sid Hw H Es.
    apply (settled_once_settle (with_conn (put_connected true) w));
      [done|by apply (accepted_held w sid)|].
    intros cur pid. unfold resolve. rewrite !count_cons. cbn [settles].
    destruct (decide (pid = cur)) as [->|Hne].
    + by rewrite bool_decide_eq_true_2.
    + rewrite bool_decide_eq_false_2; [done|congruence].
  - by intros w sid _ H _.
  - intros w sid message Hw H Es.
    apply settled_once_settle; [done|by apply (accepted_held w sid)|].
    intros cur pid. unfold reject. rewrite !count_cons. cbn [settles].
    destruct (decide (pid = cur)) as [->|Hne].
    + by rewrite bool_decide_eq_true_2.
    + rewrite bool_decide_eq_false_2; [done|congruence].
  - intros w _ H pid. destruct (H pid) as (H1 & H2 & H3). by split_and!.
Qed.

Lemma settled_once_fresh lib addr options :
  settled_once (fresh lib addr options).
Proof. intros p. cbn. split_and!; [unfold count; cbn; lia|done|done]. Qed.


(** X13: in every world of every session, each promise was settled at
    most once.  The pending one was not settled yet when the library
    accepts the address; when it refuses the address, the pending promise
    was rejected, once, by the exception of the executor, and its callbacks
    are kept all the same. *)
Lemma promise_settled_at_most_once lib addr options ins pid :
  let w := world_of (session lib addr options ins) in
  (count (settles pid) (log w) <= 1)%nat /\
  (_pending (conn w) = Some pid ->
   count (settles pid) (log w) =
     match invalid w (_address (conn w)) with None => 0%nat | Some _ => 1%nat end).
Proof.
  destruct (session_keeps _ settled_once_stable lib addr options ins
              (settled_once_fresh lib addr options) pid) as (H1 & H2 & _).
  split; [done|]. intros Ep. by destruct (H2 Ep).
Qed.

(** ** Timeouts and sockets of a session *)

(** Shows the components of [w] in a goal on the property [P] of a
    summary of [w]. *)
Ltac world_intro P H w := revert H; unfold P; open_world w; cbn; intros H.

Lemma timed_stable : Stable timed.
Proof.
  split.
  - by intros w es _ H _.
  - intros w _ H. world_intro timed H w.
    intros h d [_ Hh]%lookup_delete_Some. by apply (H h).
  - intros w Hw H. pose proof (inv_timer_handle _ Hw) as T1.
    world_intro timed H w. cbn in T1.
    intros h d [Hne Hh]%lookup_delete_Some. destruct Hne. symmetry. eauto.
  - intros w _ H. unfold released. by destruct (_socket (conn w)).
  - intros w Hw H _ _. unfold rearmed.
    destruct (reconnect (_options (conn w)) <=? 0) eqn:Er; [done|].
    apply Z.leb_gt in Er. world_intro timed H w. cbn in Er.
    intros h d [[_ <-]|[_ [_ Hh]%lookup_delete_Some]]%lookup_insert_Some;
      [done|by apply (H h)].
  - intros w _ H _ _ _ _. world_intro timed H w.
    intros h d [_ Hh]%lookup_delete_Some. by apply (H h).
  - intros w e _ H _ _ _ _. world_intro timed H w.
    intros h d [_ Hh]%lookup_delete_Some. by apply (H h).
  - intros w d0 _ H _. world_intro timed H w.
    intros h d [_ Hh]%lookup_delete_Some. by apply (H h).
  - intros w sid _ H _. unfold settled. cbn. by destruct (_pending (conn w)).
  - by intros w sid _ H _.
  - intros w sid message _ H _. unfold settled. by destruct (_pending (conn w)).
  - by intros w _ H.
Qed.

Lemma addressed_stable : Stable addressed.
Proof.
  split.
  - by intros w es _ H _.
  - by intros w _ H.
  - by intros w _ H.
  - intros w _ H. unfold released.
    destruct (_socket (conn w)) as [cur|] eqn:Es; [|done].
    world_intro addressed H w. intros sid ws.
    destruct (decide (cur = sid)) as [<-|Hne].
    + rewrite list_lookup_alter_eq.
      destruct (ss !! cur) as [ws0|] eqn:E; [|done].
      intros [= <-]. cbn. by apply (H cur).
    + rewrite list_lookup_alter_ne by done. apply H.
  - intros w _ H _ _. unfold rearmed.
    by destruct (reconnect (_options (conn w)) <=? 0).
  - intros w _ H _ _ _ _. world_intro addressed H w.
    intros sid ws [[_ Hl]|[_ <-]]%lookup_snoc_Some; [by apply (H sid)|done].
  - by intros w e _ H _ _ _ _.
  - intros w d _ H _. world_intro addressed H w.
    intros sid ws [[_ Hl]|[_ <-]]%lookup_snoc_Some; [by apply (H sid)|done].
  - intros w sid _ H _. unfold settled. cbn. by destruct (_pending (conn w)).
  - by intros w sid _ H _.
  - intros w sid message _ H _. unfold settled. by destruct (_pending (conn w)).
  - by intros w _ H.
Qed.

(** A stable property that holds when the object is created holds in every
    reachable world. *)
Lemma reachable_keeps (P : World -> Prop) w :
  Stable P -> (forall lib addr options, P (fresh lib addr options)) ->
  reachable w -> P w.
Proof.
  intros HP H0 (lib & addr & options & ins & E).
  pose proof (session_keeps P HP lib addr options ins (H0 lib addr options)) as H.
  by rewrite E in H.
Qed.

(** X7: in a reachable world a scheduled timeout is the one [_timeout]
    names, so at most one is scheduled; its delay is the current
    [_options.reconnect], which is positive; and while it is scheduled no
    socket is held and the connected flag is down. *)
Theorem X7_one_timeout w h d :
  reachable w -> timers w !! h = Some d ->
  h = _timeout (conn w) /\ d = reconnect (_options (conn w)) /\ 0 < d /\
  _socket (conn w) = None /\ _connected (conn w) = false /\
  timers w = {[ h := d ]}.
Proof.
  intros Hw Hh. pose proof (reachable_Inv _ Hw) as H.
  assert (timed w) as Ht.
  { apply reachable_keeps; [apply timed_stable| |done].
    intros lib addr options h' d'. cbn. by rewrite lookup_empty. }
  destruct (Ht _ _ Hh) as [Hd Hpos].
  destruct (inv_timer_idle _ H _ _ Hh) as [Es Ec].
  pose proof (inv_timer_handle _ H _ _ Hh) as Eh.
  split_and!; try done.
  apply map_eq. intros h'. destruct (decide (h = h')) as [<-|Hne].
  - by rewrite lookup_singleton_eq.
  - rewrite lookup_singleton_ne by done.
    destruct (timers w !! h') as [d'|] eqn:E; [|done].
    pose proof (inv_timer_handle _ H _ _ E). congruence.
Qed.

(** X7 at a connection that waits to reconnect. *)
Lemma X7_one_timeout_witness :
  reachable waiting_world /\ timers waiting_world !! 0 = Some 5000 /\
  _timeout (conn waiting_world) = 0 /\ timers waiting_world = {[ 0 := 5000 ]}.
Proof.
  assert (reachable waiting_world) as Hw.
  { exists ws_only, "ws://host", sample_options,
      [Call OpConnect; SocketOpen 0%nat; SocketCloseEvent 0%nat].
    vm_compute. reflexivity. }
  split_and!; [done|done| |].
  - by destruct (X7_one_timeout waiting_world 0 5000 Hw eq_refl) as (<- & _).
  - by destruct (X7_one_timeout waiting_world 0 5000 Hw eq_refl) as (_ & _ & _ & _ & _ & ?).
Defined.

(** X8: in a reachable world every socket was constructed from the address
    of the connection; the four handlers are registered on the socket
    held, and no handler is registered on any other socket. *)
Theorem X8_sockets w sid ws :
  reachable w -> sockets w !! sid = Some ws ->
  ws_url ws = _address (conn w) /\
  forall k, listens k ws = bool_decide (_socket (conn w) = Some sid).
Proof.
  intros Hw Hl. pose proof (reachable_Inv _ Hw) as H. split.
  - assert (addressed w) as Ha; [|by apply (Ha sid)].
    apply reachable_keeps; [apply addressed_stable| |done].
    intros lib addr options sid' ws'. cbn. by rewrite lookup_nil.
  - intros k. destruct (decide (_socket (conn w) = Some sid)) as [Es|Es].
    + rewrite bool_decide_eq_true_2 by done.
      destruct (inv_socket _ H _ Es) as [url Hl']. rewrite Hl in Hl'.
      injection Hl' as ->. by destruct k.
    + rewrite bool_decide_eq_false_2 by done.
      destruct (listens k ws) eqn:Ek; [|done].
      by destruct Es; apply (inv_listeners _ H _ ws k).
Qed.

(** X8 at the closed socket of a connection that has reconnected. *)
Lemma X8_sockets_witness :
  reachable reconnected_world /\
  sockets reconnected_world !! 0%nat = Some (mkWebSocket "ws://host" false false false false) /\
  _socket (conn reconnected_world) = Some 1%nat /\ _address (conn reconnected_world) = "ws://host".
Proof.
  assert (reachable reconnected_world) as Hw.
  { exists ws_only, "ws://host", sample_options,
      [Call OpConnect; SocketOpen 0%nat; SocketCloseEvent 0%nat; TimerFire 0].
    vm_compute. reflexivity. }
  split_and!; [done|done|done|].
  by destruct (X8_sockets reconnected_world 0%nat _ Hw eq_refl) as [<- _].
Defined.

(** ** Every socket let go was closed once *)

Lemma closes_plain sid es :
  Forall (fun e => plain e = true) es -> count (closes sid) es = 0%nat.
Proof.
  intros H. apply count_zero. eapply Forall_impl; [exact H|]. by intros [].
Qed.

(** A world that differs in what [closed_once] does not look at. *)
Lemma closed_once_log w w' es :
  closed_once w -> log w' = log w ++ es ->
  sockets w' = sockets w -> _socket (conn w') = _socket (conn w) ->
  (forall sid, count (closes sid) es = 0%nat) -> closed_once w'.
Proof.
  intros H El Es Ec Hes sid. destruct (H sid) as [H1 H2].
  rewrite El, Es, Ec, count_app, Hes, Nat.add_0_r. done.
Qed.

Lemma closed_once_opened w :
  closed_once w -> _socket (conn w) = None -> closed_once (opened w).
Proof.
  intros H Es sid. destruct (H sid) as [H1 H2]. revert H1 H2.
  open_world w. cbn in Es. subst. cbn. rewrite length_app. cbn.
  rewrite count_app.
  assert (count (closes sid)
            [NewWebSocket (length ss) a; AddEventListener (length ss) KOpen;
             AddEventListener (length ss) KMessage;
             AddEventListener (length ss) KClose;
             AddEventListener (length ss) KError] = 0%nat) as ->.
  { apply count_zero. by repeat constructor. }
  rewrite Nat.add_0_r. intros H1 H2. split.
  - intros Hlt Hne. apply H1; [|done].
    destruct (decide (sid = length ss)) as [->|?]; [done|lia].
  - intros [Hge|[= <-]]; apply H2; left; lia.
Qed.

Lemma closed_once_stable : Stable closed_once.
Proof.
  split.
  - intros w es _ H Hes. apply (closed_once_log w _ es); try done;
      intros sid; by apply closes_plain.
  - intros w _ H. apply (closed_once_log w _ []); try done;
      cbn; by rewrite app_nil_r.
  - intros w _ H. apply (closed_once_log w _ []); try done;
      cbn; by rewrite app_nil_r.
  - intros w Hw H. pose proof (inv_socket _ Hw) as S1. unfold released.
    destruct (_socket (conn w)) as [cur|] eqn:Es; [|done].
    destruct (S1 cur eq_refl) as [url Hl]. apply lookup_lt_Some in Hl.
    intros sid. destruct (H sid) as [H1 H2]. revert H1 H2 Hl.
    open_world w. cbn in Es. subst. cbn. rewrite length_alter, count_app.
    rewrite !count_cons. cbn [closes Nat.add].
    change (count (closes sid) []) with 0%nat.
    intros H1 H2 Hl. destruct (decide (cur = sid)) as [->|Hne].
    + rewrite bool_decide_eq_true_2 by done. rewrite H2 by by right.
      split; [done|]. intros [?|?]; [lia|done].
    + rewrite bool_decide_eq_false_2 by done. rewrite Nat.add_0_r. split.
      * intros Hlt _. apply H1; [done|congruence].
      * intros [Hge|?]; [|done]. apply H2. by left.
  - intros w _ H _ _. unfold rearmed.
    destruct (reconnect (_options (conn w)) <=? 0); [done|].
    eapply (closed_once_log w); try done; intros sid; apply count_zero;
      by repeat constructor.
  - intros w _ H _ _ Es _.
    apply closed_once_opened; [|done].
    apply (closed_once_log w _ []); try done; cbn; by rewrite app_nil_r.
  - intros w e _ H _ _ Es _.
    apply (closed_once_log w _ [PromiseReject (next_promise w) e]); try done;
      intros sid; apply count_zero; by repeat constructor.
  - intros w d Hw H Hd. destruct (inv_timer_idle _ Hw _ _ Hd) as [Es _].
    apply closed_once_opened; [|done].
    apply (closed_once_log w _ []); try done; cbn; by rewrite app_nil_r.
  - intros w sid _ H _. unfold settled. cbn.
    destruct (_pending (conn w)) as [pid|] eqn:Ep.
    + apply (closed_once_log w _ (resolve pid)); try done;
        intros s; apply count_zero; by repeat constructor.
    + apply (closed_once_log w _ []); try done; cbn; by rewrite app_nil_r.
  - intros w sid _ H _. apply (closed_once_log w _ []); try done;
      cbn; by rewrite app_nil_r.
  - intros w sid message _ H _. unfold settled.
    destruct (_pending (conn w)) as [pid|] eqn:Ep; [|done].
    apply (closed_once_log w _ (reject message pid)); try done;
      intros s; apply count_zero; by repeat constructor.
  - intros w _ H. apply (closed_once_log w _ []); try done;
      cbn; by rewrite app_nil_r.
Qed.

(** X12: in a reachable world [close()] was called exactly once on every
    socket that is not held any more, and never on the socket held: no
    socket is left open behind, and none is closed twice. *)
Theorem X12_closed_once w sid :
  reachable w -> (sid < length (sockets w))%nat ->
  count (closes sid) (log w) =
    (if decide (_socket (conn w) = Some sid) then 0%nat else 1%nat).
Proof.
  intros Hw Hlt.
  assert (closed_once w) as H.
  { apply reachable_keeps; [apply closed_once_stable| |done].
    intros lib addr options s. split; [cbn; lia|done]. }
  destruct (H sid) as [H1 H2]. case_decide; [apply H2; by right|by apply H1].
Qed.

(** X12 at the two sockets of a connection that has reconnected. *)
Lemma X12_closed_once_witness :
  reachable reconnected_world /\ length (sockets reconnected_world) = 2%nat /\
  count (closes 0) (log reconnected_world) = 1%nat /\
  count (closes 1) (log reconnected_world) = 0%nat.
Proof.
  assert (reachable reconnected_world) as Hw.
  { exists ws_only, "ws://host", sample_options,
      [Call OpConnect; SocketOpen 0%nat; SocketCloseEvent 0%nat; TimerFire 0].
    vm_compute. reflexivity. }
  split_and!; [done|done| |].
  - apply (X12_closed_once reconnected_world 0%nat Hw). vm_compute. lia.
  - apply (X12_closed_once reconnected_world 1%nat Hw). vm_compute. lia.
Defined.

(** ** [destroy()] gives the pending promise up *)

Lemma count_app_none f es1 es2 n :
  count f es1 = n -> count f es2 = 0%nat -> count f (es1 ++ es2) = n.
Proof. intros E1 E2. rewrite count_app, E1, E2. lia. Qed.

Lemma abandoned_stable pid n : Stable (abandoned pid n).
Proof.
  split.
  - intros w es _ (Hn & Hc & Hp) Hes. split_and!; [done| |done].
    cbn. apply count_app_none; [done|by apply count_plain].
  - by intros w _ H.
  - by intros w _ H.
  - intros w _ (Hn & Hc & Hp). unfold released.
    destruct (_socket (conn w)) as [sid|] eqn:Es; [|done].
    split_and!; [done| |done]. cbn. apply count_app_none; [done|].
    by settles_none.
  - intros w _ (Hn & Hc & Hp) _ _. unfold rearmed.
    destruct (reconnect (_options (conn w)) <=? 0); [done|].
    split_and!; [done| |done]. cbn. apply count_app_none; [done|].
    by settles_none.
  - intros w _ (Hn & Hc & Hp) _ _ _ _. split_and!; cbn.
    + lia.
    + apply count_app_none; [done|]. by settles_none.
    + intros [= Heq]. lia.
  - intros w e _ (Hn & Hc & Hp) _ _ _ _. split_and!; cbn.
    + lia.
    + apply count_app_none; [done|]. settles_none.
      apply bool_decide_eq_false_2. lia.
    + intros [= Heq]. lia.
  - intros w d _ (Hn & Hc & Hp) _. split_and!; [done| |done].
    cbn. apply count_app_none; [done|]. by settles_none.
  - intros w sid _ (Hn & Hc & Hp) _. revert Hn Hc Hp.
    unfold abandoned, settled. open_world w. cbn.
    destruct p as [cur|]; cbn; intros Hn Hc Hp; (split_and!; [done| |done]);
      [|done].
    apply count_app_none; [done|]. settles_none. by destruct Hp.
  - by intros w sid _ H _.
  - intros w sid message _ (Hn & Hc & Hp) _. revert Hn Hc Hp.
    unfold abandoned, settled. open_world w. cbn.
    destruct p as [cur|]; cbn; intros Hn Hc Hp; (split_and!; [done| |done]);
      [|done].
    apply count_app_none; [done|]. settles_none. by destruct Hp.
  - intros w _ (Hn & Hc & Hp). by split_and!.
Qed.

(** The pending promise of a reachable world was created, and settled as
    [pending_settled] says. *)
Lemma reachable_pending w pid :
  reachable w -> _pending (conn w) = Some pid ->
  count (settles pid) (log w) = pending_settled w /\ (pid < next_promise w)%nat.
Proof.
  intros Hw Ep.
  assert (settled_once w) as H.
  { apply reachable_keeps; [apply settled_once_stable| |done].
    apply settled_once_fresh. }
  destruct (H pid) as (_ & H2 & _). by apply H2.
Qed.

(** X2: [destroy()] forgets the pending promise without calling its
    [resolver] or its [rejector], and no input that follows calls them.
    When the library accepts the address the promise was not settled
    before either: the promise that [connect()] returned stays unsettled
    for ever. *)
Theorem X2_destroy_abandons_pending w pid :
  reachable w -> _pending (conn w) = Some pid ->
  exists w', destroy w = Done tt w' /\ _pending (conn w') = None /\
    (forall ins,
       count (settles pid) (log (world_of (exec ins w'))) =
       count (settles pid) (log w)) /\
    (accepted w ->
     forall ins, count (settles pid) (log (world_of (exec ins w'))) = 0%nat).
Proof.
  intros Hw Ep. pose proof (reachable_Inv _ Hw) as H.
  destruct (reachable_pending w pid Hw Ep) as [Hc Hn].
  destruct (destroy_post w H) as ([] & w' & E & H' & _).
  exists w'. split; [done|].
  assert (abandoned pid (count (settles pid) (log w)) w' /\
          _pending (conn w') = None) as [Ha Ep'].
  { rewrite destroy_eq in E. injection E as <-. split; [|done].
    split_and!; [| |done].
    - revert Hn. open_world w. unfold released. cbn. by destruct s.
    - clear Hc. open_world w. unfold destroyed, released. cbn.
      destruct s; cbn; repeat (apply count_app_none; [|by settles_none]);
        done. }
  assert (forall ins,
    count (settles pid) (log (world_of (exec ins w'))) =
    count (settles pid) (log w)) as Hk.
  { intros ins.
    by destruct (exec_keeps _ (abandoned_stable pid _) ins w' H' Ha)
      as (_ & ? & _). }
  split_and!; [done|done|].
  intros Hacc ins. rewrite Hk, Hc. unfold pending_settled. by rewrite Hacc.
Qed.

(** X2 at a connection that is being opened, with the notifications of its
    socket and a new attempt after [destroy()]. *)
Lemma X2_destroy_abandons_pending_witness :
  reachable pending_world /\ _pending (conn pending_world) = Some 0%nat /\
  exists w', destroy pending_world = Done tt w' /\
    count (settles 0)
      (log (world_of (exec [SocketOpen 0; SocketError 0 "late" [];
                            Call OpConnect; SocketOpen 1] w'))) = 0%nat.
Proof.
  assert (reachable pending_world) as Hw.
  { exists ws_only, "ws://host", sample_options, [Call OpConnect].
    vm_compute. reflexivity. }
  split_and!; [done|done|].
  destruct (X2_destroy_abandons_pending pending_world 0%nat Hw eq_refl)
    as (w' & E & _ & _ & Hc).
  exists w'. split; [done|]. by apply Hc.
Defined.

(** ** A rejected [connect()] cancels the reconnection *)






(** ** Teardown twice, and connecting again *)

(** X1: [disconnect()] and [destroy()] can be repeated.  A second
    [disconnect()], or a [disconnect()] after [destroy()], changes nothing
    at all; a second [destroy()] only calls [destroy()] of the four
    subjects again. *)
Theorem X1_teardown_twice w :
  (disconnect;; disconnect) w = disconnect w /\
  (destroy;; disconnect) w = destroy w /\
  (destroy;; destroy) w =
    Done tt (append_log
               [SubjectDestroy "connected"; SubjectDestroy "disconnected";
                SubjectDestroy "error"; SubjectDestroy "data"]
               (world_of (destroy w))).
Proof.
  unfold bind. do 2 (rewrite ?disconnect_eq, ?destroy_eq; cbv beta iota).
  cbn [world_of]. open_world w. unfold destroyed, released, dropped.
  destruct s as [sid|]; cbn; by rewrite delete_delete_eq.
Qed.

(** X14: [disconnect()] on a connection with the connected flag down and no
    promise pending leaves a connection that [connect()] opens again: when
    the library accepts the address, it returns a new promise and opens a
    new socket to the address.  The reconnect delay stays disabled. *)
Theorem X14_connect_after_idle_disconnect w :
  _connected (conn w) = false -> _pending (conn w) = None -> accepted w ->
  exists w1 w2, disconnect w = Done tt w1 /\
    connect w1 = Done (Promised (next_promise w)) w2 /\
    _socket (conn w2) = Some (length (sockets w)) /\
    sockets w2 !! length (sockets w) =
      Some (mkWebSocket (_address (conn w)) true true true true) /\
    _pending (conn w2) = Some (next_promise w) /\
    reconnect (_options (conn w2)) = -1.
Proof.
  intros Ec Ep Hacc. set (w1 := released (dropped w)).
  assert (_socket (conn w1) = None /\ _connected (conn w1) = false /\
          _pending (conn w1) = None /\ next_promise w1 = next_promise w /\
          length (sockets w1) = length (sockets w) /\
          _address (conn w1) = _address (conn w) /\
          reconnect (_options (conn w1)) = -1 /\ accepted w1)
    as (Es & Ec1 & Ep1 & En & El & Ea & Er & Hacc1).
  { subst w1. unfold accepted in *. open_world w. unfold released.
    cbn in *. subst. destruct s; cbn; rewrite ?length_alter; by split_and!. }
  exists w1, (opened (requested (untimed w1))).
  split; [apply disconnect_eq|]. split; [by rewrite connect_idle, En|].
  split_and!; cbn; rewrite ?El, ?Ea, ?En; try done.
  rewrite <- El. by apply list_lookup_middle.
Qed.

(** X14 at a connection that waits to reconnect. *)
Lemma X14_connect_after_idle_disconnect_witness :
  _connected (conn retrying_world) = false /\ _pending (conn retrying_world) = None /\
  accepted retrying_world /\
  exists w1 w2, disconnect retrying_world = Done tt w1 /\
    connect w1 = Done (Promised 1) w2 /\ _socket (conn w2) = Some 1%nat.
Proof.
  split_and!; [done|done|done|].
  destruct (X14_connect_after_idle_disconnect retrying_world
              eq_refl eq_refl eq_refl) as (w1 & w2 & E1 & E2 & Es & _).
  by exists w1, w2.
Defined.

(** X15: an explicit [connect()] takes over from a scheduled reconnection.
    In a reachable world where a timeout is scheduled and no promise is
    pending, [connect()] opens exactly one socket and leaves no timeout
    scheduled, so the timeout cannot open a second one. *)
Theorem X15_connect_takes_over w h d :
  reachable w -> timers w !! h = Some d -> _pending (conn w) = None ->
  exists w', connect w = Done (Promised (next_promise w)) w' /\
    _socket (conn w') = Some (length (sockets w)) /\
    length (sockets w') = S (length (sockets w)) /\
    timers w' = ∅ /\ fire h w' = Done tt w'.
Proof.
  intros Hw Hh Ep. pose proof (reachable_Inv _ Hw) as H.
  destruct (inv_timer_idle _ H _ _ Hh) as [Es Ec].
  pose proof (inv_timer_accepted _ H _ _ Hh) as Ha.
  pose proof (timers_untimed w H) as Et.
  eexists. split; [by apply connect_idle|].
  split_and!.
  - done.
  - cbn. rewrite length_app. cbn. lia.
  - exact Et.
  - unfold fire, bind, gets.
    change (timers (opened (requested (untimed w)))) with (timers (untimed w)).
    by rewrite Et, lookup_empty.
Qed.

(** X15 at a connection that waits to reconnect after a close. *)
Lemma X15_connect_takes_over_witness :
  reachable waiting_world /\ timers waiting_world !! 0 = Some 5000 /\
  _pending (conn waiting_world) = None /\
  exists w', connect waiting_world = Done (Promised 1) w' /\
    step (TimerFire 0) w' = Done tt w'.
Proof.
  assert (reachable waiting_world) as Hw.
  { exists ws_only, "ws://host", sample_options,
      [Call OpConnect; SocketOpen 0%nat; SocketCloseEvent 0%nat].
    vm_compute. reflexivity. }
  split_and!; [done|done|done|].
  destruct (X15_connect_takes_over waiting_world 0 5000 Hw eq_refl eq_refl)
    as (w' & E & _ & _ & _ & Hf).
  by exists w'.
Defined.

(** ** A connection from [connect()] to [send] *)

(** X5: on a connection at rest whose address the library accepts,
    [connect()] returns a new promise and opens a socket to the address;
    the open notification of that socket calls the [resolver] of that
    promise, once, and then emits [connected]; from then on [send] passes
    the bytes to that socket and returns [undefined]. *)
Theorem X5_connect_open_send w buffer :
  _pending (conn w) = None -> _connected (conn w) = false ->
  _socket (conn w) = None -> accepted w ->
  let pid := next_promise w in
  let sid := length (sockets w) in
  exists w1 w2,
    connect w = Done (Promised pid) w1 /\
    transport_calls (since (untimed w) w1) =
      [NewWebSocket sid (_address (conn w)); AddEventListener sid KOpen;
       AddEventListener sid KMessage; AddEventListener sid KClose;
       AddEventListener sid KError] /\
    step (SocketOpen sid) w1 = Done tt w2 /\
    since w1 w2 = [PromiseResolve pid; EmitConnected] /\
    _pending (conn w2) = None /\
    send buffer w2 = Done None (append_log [SocketSend sid buffer] w2).
Proof.
  intros Ep Ec Es Ha pid sid.
  exists (opened (requested (untimed w))),
    (append_log [PromiseResolve pid; EmitConnected]
       (with_conn (fun c => put_pending None (put_connected true c))
          (opened (requested (untimed w))))).
  split; [by apply connect_idle|]. split.
  { erewrite since_app; [|done]. done. }
  split.
  { cbn [step]. unfold dispatch, bind at 1, gets.
    assert (sockets (opened (requested (untimed w))) !! sid =
            Some (mkWebSocket (_address (conn w)) true true true true)) as ->.
    { cbn. by apply list_lookup_middle. }
    cbn [listens ws_on_open]. rewrite on_open_eq.
    unfold settled, resolve.
    assert (_pending (conn (with_conn (put_connected true)
                              (opened (requested (untimed w))))) = Some pid)
      as -> by by open_world w.
    unfold append_log, with_conn.
    cbn [conn sockets timers next_timer next_promise log invalid].
    by rewrite <- app_assoc. }
  split; [by apply since_app|]. split; [done|].
  by apply send_open.
Qed.

(** X5 on a connection just constructed. *)
Lemma X5_connect_open_send_witness :
  _pending (conn (fresh ws_only "ws://host" sample_options)) = None /\
  accepted (fresh ws_only "ws://host" sample_options) /\
  exists w1 w2,
    connect (fresh ws_only "ws://host" sample_options) = Done (Promised 0) w1 /\
    step (SocketOpen 0) w1 = Done tt w2 /\
    send [x01] w2 = Done None (append_log [SocketSend 0 [x01]] w2).
Proof.
  split; [done|]. split; [done|].
  destruct (X5_connect_open_send (fresh ws_only "ws://host" sample_options) [x01]
              eq_refl eq_refl eq_refl eq_refl)
    as (w1 & w2 & E1 & _ & E2 & _ & _ & E3).
  by exists w1, w2.
Defined.

(** X11: on an open connection, [send] called on a sequence of buffers
    passes each of them to the socket, once and in that order, and changes
    nothing else. *)
Theorem X11_sends_in_order w sid buffers :
  _connected (conn w) = true -> _socket (conn w) = Some sid ->
  invoke_all (map OpSend buffers) w =
    Done tt (append_log (map (SocketSend sid) buffers) w).
Proof.
  intros Ec Es. revert w Ec Es.
  induction buffers as [|b bs IH]; intros w Ec Es.
  - cbn. unfold ret, append_log. rewrite app_nil_r. by destruct w.
  - cbn [map invoke_all invoke]. unfold bind.
    rewrite (send_open w sid) by done. unfold ret. rewrite IH by done.
    f_equal. unfold append_log. cbn. by rewrite <- app_assoc.
Qed.

(** X11 at three buffers, one of them empty. *)
Lemma X11_sends_in_order_witness :
  _connected (conn c10_world) = true /\ _socket (conn c10_world) = Some 0%nat /\
  invoke_all [OpSend [x01]; OpSend []; OpSend [x02; x03]] c10_world =
    Done tt (append_log [SocketSend 0 [x01]; SocketSend 0 [];
                         SocketSend 0 [x02; x03]] c10_world).
Proof.
  split_and!; [done|done|].
  apply (X11_sends_in_order c10_world 0%nat [[x01]; []; [x02; x03]]);
    reflexivity.
Defined.

(** ** Notifications of a socket that is not held *)

(** X6: in a reachable world a notification of a socket that is not the one
    held changes nothing, whatever its kind: the sockets that were let go
    cannot act on the connection. *)
Theorem X6_stale_notifications w sid :
  reachable w -> _socket (conn w) <> Some sid ->
  step (SocketOpen sid) w = Done tt w /\
  (forall data, step (SocketMessage sid data) w = Done tt w) /\
  step (SocketCloseEvent sid) w = Done tt w /\
  (forall message during, step (SocketError sid message during) w = Done tt w).
Proof.
  intros Hw Hne. pose proof (reachable_Inv _ Hw) as H.
  assert (forall k handler, dispatch sid k handler w = Done tt w) as Hd.
  { intros k handler. unfold dispatch, bind, gets.
    destruct (sockets w !! sid) as [ws|] eqn:E; [|done].
    destruct (listens k ws) eqn:Ek; [|done].
    by destruct Hne; apply (inv_listeners _ H _ ws k). }
  split_and!; intros; apply Hd.
Qed.

(** X6 at the first socket of a connection that has reconnected. *)
Lemma X6_stale_notifications_witness :
  reachable reconnected_world /\ _socket (conn reconnected_world) <> Some 0%nat /\
  step (SocketOpen 0) reconnected_world = Done tt reconnected_world /\
  step (SocketError 0 "late" [OpDisconnect]) reconnected_world = Done tt reconnected_world.
Proof.
  assert (reachable reconnected_world) as Hw.
  { exists ws_only, "ws://host", sample_options,
      [Call OpConnect; SocketOpen 0%nat; SocketCloseEvent 0%nat; TimerFire 0].
    vm_compute. reflexivity. }
  assert (_socket (conn reconnected_world) <> Some 0%nat) as Hne by discriminate.
  split_and!; [done|done| |].
  - by destruct (X6_stale_notifications reconnected_world 0%nat Hw Hne) as (? & _).
  - destruct (X6_stale_notifications reconnected_world 0%nat Hw Hne) as (_ & _ & _ & He).
    apply He.
Defined.

(** ** Error notifications *)

(** While a socket is held no timeout is scheduled. *)
Lemma held_untimed w sid :
  Inv w -> _socket (conn w) = Some sid -> timers w = ∅.
Proof.
  intros H Es. apply map_empty. intros h.
  destruct (timers w !! h) as [d|] eqn:E; [|done].
  destruct (inv_timer_idle _ H _ _ E). congruence.
Qed.

(** An error notification of the socket held reaches [_events.error]. *)
Lemma error_held w sid message during :
  Inv w -> _socket (conn w) = Some sid ->
  step (SocketError sid message during) w = on_error message during w.
Proof.
  intros H Es. destruct (inv_socket _ H _ Es) as [url E].
  cbn [step]. unfold dispatch, bind at 1, gets. by rewrite E.
Qed.

(** X3: an error notification of the socket held, with subscribers that
    call nothing back, rejects the pending promise if there is one, emits
    [error], removes the four listeners and closes the socket, in that
    order.  Then no socket is held, the connected flag is down and nothing
    is pending; and when the reconnect delay is positive, one timeout is
    scheduled, with that delay, also when the connection was never
    opened. *)
Theorem X3_error_on_held_socket w sid message :
  reachable w -> _socket (conn w) = Some sid ->
  exists w',
    step (SocketError sid message []) w = Done tt w' /\
    since w w' =
      from_option (reject message) [] (_pending (conn w)) ++
      [LoggerDebug ("Connection error: " +:+ message);
       EmitError ("Connection error: " +:+ message);
       RemoveEventListener sid KOpen; RemoveEventListener sid KMessage;
       RemoveEventListener sid KClose; RemoveEventListener sid KError;
       SocketClose sid] ++
      (if reconnect (_options (conn w)) <=? 0 then []
       else [LoggerDebug ("Will reconnect in " +:+
                          pretty (reconnect (_options (conn w))) +:+ " ms")]) /\
    _socket (conn w') = None /\ _connected (conn w') = false /\
    _pending (conn w') = None /\
    timers w' =
      (if reconnect (_options (conn w)) <=? 0 then ∅
       else {[ next_timer w := reconnect (_options (conn w)) ]}).
Proof.
  intros Hw Es. pose proof (reachable_Inv _ Hw) as H.
  pose proof (held_untimed _ _ H Es) as Et.
  rewrite (error_held _ _ _ _ H Es), on_error_eq.
  cbn [invoke_all]. unfold bind at 1, ret. rewrite _close_eq.
  eexists. split; [done|].
  unfold rearmed, released, settled, reject.
  open_world w. cbn in Es, Et. subst s ts. cbn.
  destruct p as [pid|]; cbn; destruct (r <=? 0); cbn;
    (split_and!; try done;
     try (apply since_app; cbn; by rewrite <- ?app_assoc);
     by rewrite ?delete_empty).
Qed.

(** X3 at a first attempt that the server refuses. *)
Lemma X3_error_on_held_socket_witness :
  reachable pending_world /\ _socket (conn pending_world) = Some 0%nat /\
  exists w',
    step (SocketError 0 "refused" []) pending_world = Done tt w' /\
    _socket (conn w') = None /\ timers w' = {[ 0 := 5000 ]}.
Proof.
  assert (reachable pending_world) as Hw.
  { exists ws_only, "ws://host", sample_options, [Call OpConnect].
    vm_compute. reflexivity. }
  split_and!; [done|done|].
  destruct (X3_error_on_held_socket pending_world 0%nat "refused" Hw eq_refl)
    as (w' & E & _ & Es & _ & _ & Et).
  exists w'. by split_and!.
Defined.

(** X4: whatever the subscribers of [error] call back from inside the
    emission, the error notification of the socket held ends normally,
    with no socket held and the connected flag down: a socket that such a
    call opens is closed by the [_close()] that ends the handler. *)
Theorem X4_error_lets_go w sid message during :
  reachable w -> _socket (conn w) = Some sid ->
  exists w',
    step (SocketError sid message during) w = Done tt w' /\
    _socket (conn w') = None /\ _connected (conn w') = false /\
    forall sid' ws k, sockets w' !! sid' = Some ws -> listens k ws = false.
Proof.
  intros Hw Es. pose proof (reachable_Inv _ Hw) as H.
  rewrite (error_held _ _ _ _ H Es), on_error_eq.
  set (w0 := append_log _ _).
  assert (Inv w0 /\ _connected (conn w0) = false) as [H0 Ec0].
  { split.
    - apply Inv_append_log, Inv_settled, Inv_disconnected, H.
    - unfold w0, settled. open_world w. cbn. by destruct p. }
  assert (accepted w0) as Ha0.
  { pose proof (accepted_held _ _ H Es) as Ha. revert Ha.
    unfold w0, accepted, settled. open_world w. cbn. by destruct p. }
  destruct (invoke_all_post during w0 H0) as ([] & w1 & E1 & H1 & Ec1 & Ha1).
  unfold bind at 1. rewrite E1, _close_eq.
  rewrite Ec0 in Ec1.
  assert (_socket (conn (released w1)) = None) as Er.
  { unfold released. destruct (_socket (conn w1)) eqn:E; [done|].
    by rewrite E. }
  assert (_connected (conn (released w1)) = false) as Ecr.
  { unfold released. by destruct (_socket (conn w1)). }
  assert (accepted (released w1)) as Har.
  { specialize (Ha1 Ha0). revert Ha1. unfold accepted, released.
    by destruct (_socket (conn w1)). }
  pose proof (Inv_rearmed _ (Inv_released _ H1) Er Ecr (or_intror Har)) as H2.
  assert (_socket (conn (rearmed (released w1))) = None) as Es2.
  { unfold rearmed.
    by destruct (reconnect (_options (conn (released w1))) <=? 0). }
  eexists. split_and!; [done|done| |].
  - unfold rearmed.
    by destruct (reconnect (_options (conn (released w1))) <=? 0).
  - intros sid' ws k E. destruct (listens k ws) eqn:Ek; [|done].
    pose proof (inv_listeners _ H2 _ _ _ E Ek). congruence.
Qed.

(** X4 at subscribers that call [disconnect()] and then [connect()]. *)
Lemma X4_error_lets_go_witness :
  reachable c10_world /\ _socket (conn c10_world) = Some 0%nat /\
  exists w',
    step (SocketError 0 "reset" [OpDisconnect; OpConnect]) c10_world =
      Done tt w' /\
    _socket (conn w') = None /\ length (sockets w') = 2%nat.
Proof.
  assert (reachable c10_world) as Hw.
  { exists ws_only, "ws://host", sample_options, [Call OpConnect; SocketOpen 0%nat].
    vm_compute. reflexivity. }
  split_and!; [done|done|].
  destruct (X4_error_lets_go c10_world 0%nat "reset" [OpDisconnect; OpConnect]
              Hw eq_refl) as (w' & E & Es & _).
  exists w'. split_and!; [done|done|].
  revert E. vm_compute. by intros [= <-].
Defined.

(** ** Retries *)

(** One failed attempt and the retry that follows it. *)
Lemma retry_cycle w sid message :
  Inv w -> _socket (conn w) = Some sid -> 0 < reconnect (_options (conn w)) ->
  exists w' es,
    exec [SocketError sid message []; TimerFire (next_timer w)] w = Done tt w' /\
    Inv w' /\
    _socket (conn w') = Some (length (sockets w)) /\
    length (sockets w') = S (length (sockets w)) /\
    next_timer w' = next_timer w + 1 /\
    reconnect (_options (conn w')) = reconnect (_options (conn w)) /\
    log w' = log w ++ es /\
    emissions es = [EmitError ("Connection error: " +:+ message)] /\
    count is_new es = 1%nat.
Proof.
  intros H Es Hr. pose proof (held_untimed _ _ H Es) as Et.
  destruct (exec_Inv [SocketError sid message []; TimerFire (next_timer w)] w H)
    as ([] & w' & E & H').
  exists w'. pose proof E as E0. revert E0. cbn [exec]. unfold bind at 1.
  rewrite (error_held _ _ _ _ H Es), on_error_eq.
  cbn [invoke_all]. unfold bind at 1, ret. rewrite _close_eq.
  unfold bind at 1. cbn [step].
  set (w1 := rearmed _).
  assert (timers w1 !! next_timer w = Some (reconnect (_options (conn w))) /\
          _socket (conn w1) = None /\ accepted w1) as (E1 & Es1 & Ea1).
  { pose proof (accepted_held _ _ H Es) as Ha. revert Ha.
    unfold w1, accepted, rearmed, released, settled. apply Z.leb_gt in Hr.
    open_world w. cbn in Es, Hr. subst s. cbn.
    destruct p; cbn; rewrite Hr; cbn; by rewrite lookup_insert_eq. }
  rewrite (fire_scheduled _ _ _ E1 Es1 Ea1). unfold ret. intros [= <-].
  clear E1 Es1 Ea1. revert E H'.
  unfold w1, rearmed, released, settled, reject. apply Z.leb_gt in Hr.
  open_world w. cbn in Es, Hr, Et. subst s ts. cbn.
  destruct p; cbn; rewrite Hr; cbn; intros E H'; eexists;
    (split_and!; try done;
     [by rewrite length_alter
     |rewrite length_app, length_alter; cbn; lia
     |by rewrite <- !app_assoc|reflexivity|reflexivity]).
Qed.

Lemma failing_server messages : forall w sid,
  Inv w -> _socket (conn w) = Some sid -> 0 < reconnect (_options (conn w)) ->
  exists w' es,
    exec (failures messages sid (length (sockets w)) (next_timer w)) w =
      Done tt w' /\
    length (sockets w') = (length (sockets w) + length messages)%nat /\
    _socket (conn w') =
      Some (match messages with [] => sid | _ => pred (length (sockets w')) end) /\
    reconnect (_options (conn w')) = reconnect (_options (conn w)) /\
    log w' = log w ++ es /\
    emissions es = error_emissions messages /\
    count is_new es = length messages.
Proof.
  induction messages as [|message rest IH]; intros w sid H Es Hr.
  - exists w, []. cbn. split_and!; try done; try lia. by rewrite app_nil_r.
  - destruct (retry_cycle w sid message H Es Hr)
      as (w1 & es1 & E1 & H1 & Es1 & El1 & En1 & Er1 & Eg1 & Ee1 & Ec1).
    destruct (IH w1 _ H1 Es1) as (w2 & es2 & E2 & El2 & Es2 & Er2 & Eg2 & Ee2 & Ec2);
      [by rewrite Er1|].
    exists w2, (es1 ++ es2). split_and!.
    + change (failures (message :: rest) sid (length (sockets w)) (next_timer w))
        with ([SocketError sid message []; TimerFire (next_timer w)] ++
              failures rest (length (sockets w)) (S (length (sockets w)))
                (next_timer w + 1)).
      rewrite exec_app. unfold bind. rewrite E1.
      by rewrite <- El1, <- En1.
    + rewrite El2, El1. cbn. lia.
    + rewrite Es2. f_equal. destruct rest; [|done].
      rewrite El2, El1. cbn. lia.
    + congruence.
    + by rewrite Eg2, Eg1, app_assoc.
    + unfold emissions in *. rewrite filter_app, Ee1, Ee2. done.
    + rewrite count_app, Ec1, Ec2. done.
Qed.

(** X9: the connection retries without bound and without backing off.
    While the reconnect delay is positive, every error notification of the
    socket held is followed by a timeout with that delay, and the timeout
    by a new socket: a server that fails [n] attempts in a row is sent
    [n] more sockets, and [error] is emitted once for each failure. *)
Theorem X9_retries_without_bound w sid messages :
  reachable w -> _socket (conn w) = Some sid ->
  0 < reconnect (_options (conn w)) ->
  exists w',
    exec (failures messages sid (length (sockets w)) (next_timer w)) w =
      Done tt w' /\
    length (sockets w') = (length (sockets w) + length messages)%nat /\
    count is_new (since w w') = length messages /\
    emissions (since w w') = error_emissions messages /\
    _socket (conn w') <> None /\
    reconnect (_options (conn w')) = reconnect (_options (conn w)).
Proof.
  intros Hw Es Hr.
  destruct (failing_server messages w sid (reachable_Inv _ Hw) Es Hr)
    as (w' & es & E & El & Es' & Er & Eg & Ee & Ec).
  exists w'. rewrite (since_app _ _ _ Eg). split_and!; try done.
  by rewrite Es'.
Qed.

(** X9 at three failures of the first attempt. *)
Lemma X9_retries_without_bound_witness :
  reachable pending_world /\ _socket (conn pending_world) = Some 0%nat /\
  0 < reconnect (_options (conn pending_world)) /\
  exists w',
    exec (failures ["a"; "b"; "c"] 0 (length (sockets pending_world))
            (next_timer pending_world)) pending_world = Done tt w' /\
    count is_new (since pending_world w') = 3%nat.
Proof.
  assert (reachable pending_world) as Hw.
  { exists ws_only, "ws://host", sample_options, [Call OpConnect].
    vm_compute. reflexivity. }
  split_and!; [done|done|done|].
  destruct (X9_retries_without_bound pending_world 0%nat ["a"; "b"; "c"]
              Hw eq_refl eq_refl) as (w' & E & _ & Ec & _).
  exists w'. split; [exact E|exact Ec].
Defined.

(** ** Construction with [autoconnect] *)

(** X10: a connection constructed with [autoconnect], at an address the
    library accepts, has called [connect()]: one socket was constructed,
    from the address, and is held with its four listeners, and a promise
    is pending that the constructor returned to nobody.  Until a
    notification of that socket arrives a call of [connect()] is rejected
    as already requested; once the socket is open it is rejected as already
    connected. *)
Theorem X10_autoconnect lib addr options :
  autoconnect options = true -> lib addr = None ->
  exists w,
    constructor (fresh lib addr options) = Done tt w /\
    _socket (conn w) = Some 0%nat /\
    sockets w = [mkWebSocket addr true true true true] /\
    _pending (conn w) = Some 0%nat /\
    timers w = ∅ /\
    transport_calls (log w) =
      [NewWebSocket 0 addr; AddEventListener 0 KOpen;
       AddEventListener 0 KMessage; AddEventListener 0 KClose;
       AddEventListener 0 KError] /\
    (exists w', connect w =
       Done (Rejected "Connection is already requested") w') /\
    exists w1 w2,
      step (SocketOpen 0) w = Done tt w1 /\
      since w w1 = [PromiseResolve 0; EmitConnected] /\
      connect w1 = Done (Rejected "Already connected") w2.
Proof.
  intros Ea Hacc.
  exists (opened (requested (untimed (fresh lib addr options)))).
  assert (constructor (fresh lib addr options) =
          Done tt (opened (requested (untimed (fresh lib addr options))))) as E.
  { unfold constructor, bind at 1, this, gets. cbn [fresh conn _options].
    rewrite Ea. unfold bind. by rewrite connect_idle. }
  split_and!; try done.
  - eexists. by eapply connect_requested.
  - eexists _, _. split_and!.
    + cbn [step]. unfold dispatch, bind at 1, gets.
      change (sockets (opened (requested (untimed (fresh lib addr options)))) !! 0%nat)
        with (Some (mkWebSocket addr true true true true)).
      cbn [listens ws_on_open]. by rewrite on_open_eq.
    + by apply since_app.
    + by apply connect_connected; [|left].
Qed.

(** X10 at the options of [c6_world]. *)
Lemma X10_autoconnect_witness :
  autoconnect (mkOptions "log" true 5000) = true /\
  ws_only "ws://host" = None /\
  exists w,
    constructor (fresh ws_only "ws://host" (mkOptions "log" true 5000)) = Done tt w /\
    _socket (conn w) = Some 0%nat /\ _pending (conn w) = Some 0%nat.
Proof.
  split; [done|]. split; [done|].
  destruct (X10_autoconnect ws_only "ws://host" (mkOptions "log" true 5000)
              eq_refl eq_refl) as (w & E & Es & _ & Ep & _).
  by exists w.
Defined.

(** ** An address that the library refuses *)





